(** * EchoNote AI: the OpenAI service module (services/openaiService)

    A shallow embedding of the request helper, the chat session, the
    text-to-speech chunker and the WAV container writer, with the
    properties the specification states about them.

    Strings are sequences of UTF-16 code units, Numbers that are indices,
    lengths or sizes are integers, audio samples are binary64 floats.
    Asynchronous functions are computations over a world that records the
    [fetch] calls issued and holds the chat sessions; the network is a
    parameter. The [console.log] and [console.error] calls leave no trace
    in any result and are left out. *)

From Stdlib Require Import ZArith NArith List Bool Lia String Ascii DecimalString.
From Stdlib Require Import Floats.
From stdpp Require Import base list gmap.
From Equations Require Import Equations.

Local Open Scope Z_scope.

(** ** JavaScript strings

    A JavaScript string is a sequence of UTF-16 code units; [length],
    [substring], [lastIndexOf] and [trim] all work on code units. *)

Module JsString.

Definition code_unit := N.
Definition str := list code_unit.

(** A string literal of the source, as code units. *)
Definition js (s : string) : str := map N_of_ascii (list_ascii_of_string s).

(** [s.length] *)
Definition strlen (s : str) : Z := Z.of_nat (length s).

(** An index argument clamped into [0 .. s.length], as [substring] and
    [lastIndexOf] do with their position arguments. *)
Definition clamp_index (s : str) (i : Z) : nat :=
  Z.to_nat (Z.min (Z.max i 0) (strlen s)).

(** [s.substring(start, end)]: both ends are clamped and swapped when
    start exceeds end. *)
Definition substring (s : str) (start end_ : Z) : str :=
  let finalStart := clamp_index s start in
  let finalEnd := clamp_index s end_ in
  let from := Nat.min finalStart finalEnd in
  let to := Nat.max finalStart finalEnd in
  take (to - from)%nat (drop from s).

(** [s.substring(start)]: the end defaults to [s.length]. *)
Definition substring_from (s : str) (start : Z) : str :=
  drop (clamp_index s start) s.

(** [pat] occurs in [s] at index 0. *)
Fixpoint startsWith (pat s : str) : bool :=
  match pat, s with
  | [], _ => true
  | _ :: _, [] => false
  | p :: pat', c :: s' => (p =? c)%N && startsWith pat' s'
  end.

(** [pat] occurs in [s] at index [i]. *)
Definition occursAt (pat s : str) (i : nat) : bool := startsWith pat (drop i s).

(** The search of [lastIndexOf]: the candidates [i], [i-1], ..., [0] in
    turn; [-1] when none matches. *)
Fixpoint lastIndexOf_down (s pat : str) (i : nat) : Z :=
  if occursAt pat s i then Z.of_nat i
  else match i with
       | O => -1
       | S i' => lastIndexOf_down s pat i'
       end.

(** [s.lastIndexOf(pat, position)]: the greatest index not above
    [position] at which [pat] occurs, or [-1]. *)
Definition lastIndexOf (s pat : str) (position : Z) : Z :=
  lastIndexOf_down s pat (clamp_index s position).

(** WhiteSpace and LineTerminator code units, the ones [trim] strips. *)
Definition isWhiteSpace (c : code_unit) : bool :=
  ((c =? 9) || (c =? 10) || (c =? 11) || (c =? 12) || (c =? 13) || (c =? 32)
   || (c =? 160) || (c =? 5760) || ((8192 <=? c) && (c <=? 8202))
   || (c =? 8232) || (c =? 8233) || (c =? 8239) || (c =? 8287)
   || (c =? 12288) || (c =? 65279))%N.

Fixpoint trimStart (s : str) : str :=
  match s with
  | c :: s' => if isWhiteSpace c then trimStart s' else s
  | [] => []
  end.

Definition trimEnd (s : str) : str := rev (trimStart (rev s)).

(** [s.trim()] *)
Definition trim (s : str) : str := trimEnd (trimStart s).

(** The code units that are not white space, in order. *)
Definition nonWhiteSpace (s : str) : str :=
  List.filter (fun c => negb (isWhiteSpace c)) s.

(** *** Facts about the string operations *)

Lemma strlen_nonneg s : 0 <= strlen s.
Proof. unfold strlen. lia. Qed.

Lemma clamp_index_le s i : (clamp_index s i <= length s)%nat.
Proof. unfold clamp_index, strlen. lia. Qed.

Lemma clamp_index_inside s i :
  0 <= i <= strlen s -> clamp_index s i = Z.to_nat i.
Proof. unfold clamp_index, strlen. intros H. f_equal. lia. Qed.

Lemma substring_prefix s k : substring s 0 k = take (clamp_index s k) s.
Proof.
  unfold substring.
  replace (clamp_index s 0) with 0%nat by (unfold clamp_index, strlen; lia).
  rewrite Nat.min_0_l, Nat.max_0_l, Nat.sub_0_r. reflexivity.
Qed.

Lemma substring_cut s k : substring s 0 k ++ substring_from s k = s.
Proof. rewrite substring_prefix. unfold substring_from. apply take_drop. Qed.

Lemma substring_length s k :
  0 <= k -> strlen (substring s 0 k) <= k.
Proof.
  intros Hk. rewrite substring_prefix. unfold strlen.
  rewrite length_take. unfold clamp_index, strlen. lia.
Qed.

Lemma startsWith_head c pat s :
  startsWith (c :: pat) s = true -> head s = Some c.
Proof.
  destruct s as [|d s]; simpl; [discriminate|].
  intros H. apply andb_true_iff in H as [H _].
  apply N.eqb_eq in H. congruence.
Qed.

Lemma occursAt_lookup c pat s i :
  occursAt (c :: pat) s i = true -> s !! i = Some c.
Proof.
  unfold occursAt. intros H. apply startsWith_head in H.
  rewrite <- H, head_lookup, lookup_drop. f_equal. lia.
Qed.

(** [lastIndexOf_down] returns the greatest candidate that matches. *)
Lemma lastIndexOf_down_found s pat i v :
  lastIndexOf_down s pat i = v -> v <> -1 ->
  exists j, v = Z.of_nat j /\ (j <= i)%nat /\ occursAt pat s j = true /\
            forall k, (j < k <= i)%nat -> occursAt pat s k = false.
Proof.
  revert v. induction i as [|i IH]; intros v; simpl.
  - destruct (occursAt pat s 0) eqn:E; intros <- Hv; [|congruence].
    exists 0%nat. repeat split; auto. intros k Hk. lia.
  - destruct (occursAt pat s (S i)) eqn:E; intros Hd Hv.
    + exists (S i). subst v. repeat split; auto. intros k Hk. lia.
    + destruct (IH v Hd Hv) as (j & -> & Hj & Hocc & Hmax).
      exists j. repeat split; auto. intros k Hk.
      destruct (Nat.eq_dec k (S i)) as [->|Hne]; [exact E|]. apply Hmax. lia.
Qed.

Lemma lastIndexOf_down_none s pat i :
  lastIndexOf_down s pat i = -1 <->
  forall k, (k <= i)%nat -> occursAt pat s k = false.
Proof.
  induction i as [|i IH]; simpl lastIndexOf_down.
  - destruct (occursAt pat s 0) eqn:E; split.
    + intros H. lia.
    + intros H. rewrite H in E by lia. discriminate.
    + intros _ k Hk. replace k with 0%nat by lia. exact E.
    + reflexivity.
  - destruct (occursAt pat s (S i)) eqn:E; split.
    + intros H. lia.
    + intros H. rewrite H in E by lia. discriminate.
    + intros H k Hk. destruct (Nat.eq_dec k (S i)) as [->|Hne]; [exact E|].
      apply IH; [exact H|lia].
    + intros H. apply IH. intros k Hk. apply H. lia.
Qed.

Lemma lastIndexOf_found s pat position v :
  0 <= position ->
  lastIndexOf s pat position = v -> v <> -1 ->
  exists j, v = Z.of_nat j /\ Z.of_nat j <= position /\ occursAt pat s j = true /\
            forall k, (j < k)%nat -> Z.of_nat k <= position -> (k <= length s)%nat ->
                      occursAt pat s k = false.
Proof.
  unfold lastIndexOf. intros Hpos0 H Hv.
  destruct (lastIndexOf_down_found _ _ _ _ H Hv) as (j & -> & Hj & Hocc & Hmax).
  exists j. repeat split; auto.
  - unfold clamp_index, strlen in Hj. lia.
  - intros k Hk Hpos Hlen. apply Hmax. unfold clamp_index, strlen. lia.
Qed.

Lemma occursAt_beyond pat s k :
  pat <> [] -> (length s <= k)%nat -> occursAt pat s k = false.
Proof.
  intros Hpat Hk. unfold occursAt. rewrite drop_ge by lia.
  destruct pat; [congruence|reflexivity].
Qed.

Lemma lastIndexOf_none s pat position :
  pat <> [] -> 0 <= position ->
  (lastIndexOf s pat position = -1 <->
   forall k, Z.of_nat k <= position -> occursAt pat s k = false).
Proof.
  intros Hpat Hpos. unfold lastIndexOf. rewrite lastIndexOf_down_none. split.
  - intros H k Hk. destruct (Nat.le_gt_cases k (length s)) as [Hin|Hout].
    + apply H. unfold clamp_index, strlen. lia.
    + apply occursAt_beyond; [exact Hpat|lia].
  - intros H k Hk. apply H. unfold clamp_index, strlen in Hk. lia.
Qed.

Lemma lastIndexOf_range s pat position :
  0 <= position -> -1 <= lastIndexOf s pat position <= position.
Proof.
  intros Hpos. destruct (Z.eq_dec (lastIndexOf s pat position) (-1)) as [E|E].
  - rewrite E. lia.
  - destruct (lastIndexOf_found _ _ _ _ Hpos eq_refl E) as (j & Hj & Hle & _).
    rewrite Hj. lia.
Qed.

Lemma trimStart_length s : (length (trimStart s) <= length s)%nat.
Proof.
  induction s as [|c s IH]; simpl; [lia|].
  destruct (isWhiteSpace c); simpl; lia.
Qed.

Lemma trim_length s : (length (trim s) <= length s)%nat.
Proof.
  unfold trim, trimEnd. rewrite length_rev.
  etransitivity; [apply trimStart_length|].
  rewrite length_rev. apply trimStart_length.
Qed.

Lemma nonWhiteSpace_app s t :
  nonWhiteSpace (s ++ t) = nonWhiteSpace s ++ nonWhiteSpace t.
Proof. apply List.filter_app. Qed.

Lemma nonWhiteSpace_rev s : nonWhiteSpace (rev s) = rev (nonWhiteSpace s).
Proof.
  induction s as [|c s IH]; [reflexivity|].
  simpl rev. rewrite nonWhiteSpace_app, IH. simpl.
  destruct (isWhiteSpace c); simpl; [apply app_nil_r|reflexivity].
Qed.

Lemma nonWhiteSpace_trimStart s : nonWhiteSpace (trimStart s) = nonWhiteSpace s.
Proof.
  induction s as [|c s IH]; [reflexivity|]. simpl.
  destruct (isWhiteSpace c) eqn:E; simpl; rewrite ?E; simpl; auto.
Qed.

(** Trimming loses white space only. *)
Lemma nonWhiteSpace_trim s : nonWhiteSpace (trim s) = nonWhiteSpace s.
Proof.
  unfold trim, trimEnd.
  rewrite nonWhiteSpace_rev, nonWhiteSpace_trimStart, nonWhiteSpace_rev.
  rewrite rev_involutive. apply nonWhiteSpace_trimStart.
Qed.

End JsString.
Import JsString.


(** ** Text chunking of [generateSpeechFromText] *)

Definition MAX_CHARS : Z := 4000.

(** [MAX_CHARS * 0.1]. The product of the doubles 4000 and 0.1 is the
    double 400 ([tenth_of_MAX_CHARS] below), so on an integer index the
    test [splitIndex < MAX_CHARS * 0.1] is [splitIndex < 400]. *)
Definition MIN_SPLIT : Z := 400.

Definition MAX_CHARS_tenth : float := (4000 * 0x1.999999999999ap-4)%float.

Definition LF : str := [10%N].

(** The separators of the source, in the order they are searched. *)
Definition boundaryTokens : list str :=
  [js ". "; js "? "; js "! "; LF; js ", "; js " "].

(** The six [lastIndexOf] searches: each one runs only when all the
    earlier ones returned [-1]. *)
Definition searchBoundary (remainingText : str) : Z :=
  let splitIndex := lastIndexOf remainingText (js ". ") MAX_CHARS in
  let splitIndex :=
    if splitIndex =? -1 then lastIndexOf remainingText (js "? ") MAX_CHARS else splitIndex in
  let splitIndex :=
    if splitIndex =? -1 then lastIndexOf remainingText (js "! ") MAX_CHARS else splitIndex in
  let splitIndex :=
    if splitIndex =? -1 then lastIndexOf remainingText LF MAX_CHARS else splitIndex in
  let splitIndex :=
    if splitIndex =? -1 then lastIndexOf remainingText (js ", ") MAX_CHARS else splitIndex in
  let splitIndex :=
    if splitIndex =? -1 then lastIndexOf remainingText (js " ") MAX_CHARS else splitIndex in
  splitIndex.

(** The value of [splitIndex] at the two [substring] calls: the hard chop
    at [MAX_CHARS], or one past the separator found. *)
Definition findSplitIndex (remainingText : str) : Z :=
  let splitIndex := searchBoundary remainingText in
  if (splitIndex =? -1) || (splitIndex <? MIN_SPLIT) then MAX_CHARS
  else splitIndex + 1.

(** The same cascade over a list of separators. *)
Fixpoint firstFound (remainingText : str) (tokens : list str) : Z :=
  match tokens with
  | [] => -1
  | tok :: rest =>
      let splitIndex := lastIndexOf remainingText tok MAX_CHARS in
      if splitIndex =? -1 then firstFound remainingText rest else splitIndex
  end.

Lemma searchBoundary_cascade r : searchBoundary r = firstFound r boundaryTokens.
Proof.
  unfold searchBoundary, boundaryTokens, firstFound. cbv zeta.
  repeat match goal with
         | |- context [lastIndexOf ?s ?t ?m =? -1] =>
             let E := fresh "E" in
             destruct (lastIndexOf s t m =? -1) eqn:E;
             cbv iota; repeat (rewrite E; cbv iota)
         end; try reflexivity.
  apply Z.eqb_eq. assumption.
Qed.

Lemma firstFound_range r tokens : -1 <= firstFound r tokens <= MAX_CHARS.
Proof.
  induction tokens as [|tok rest IH]; simpl; [unfold MAX_CHARS; lia|].
  destruct (_ =? -1); [exact IH|].
  apply lastIndexOf_range. unfold MAX_CHARS. lia.
Qed.

(** A split point is the hard chop or lies one past an index in
    [MIN_SPLIT .. MAX_CHARS]. *)
Lemma findSplitIndex_range r : MIN_SPLIT < findSplitIndex r <= MAX_CHARS + 1.
Proof.
  unfold findSplitIndex. pose proof (firstFound_range r boundaryTokens) as H.
  rewrite <- searchBoundary_cascade in H. unfold MIN_SPLIT, MAX_CHARS in *.
  destruct (searchBoundary r =? -1) eqn:E1; simpl; [lia|].
  destruct (searchBoundary r <? 400) eqn:E2; [lia|].
  apply Z.ltb_ge in E2. lia.
Qed.

(** Past the split point less text remains, trimmed or not. *)
Lemma remainder_shorter r :
  (length (trim (substring_from r (findSplitIndex r))) < length r)%nat \/
  strlen r <= 0.
Proof.
  pose proof (findSplitIndex_range r) as Hsplit.
  destruct (decide (strlen r <= 0)) as [|Hpos]; [right; assumption|left].
  unfold strlen, MAX_CHARS, MIN_SPLIT in *.
  eapply Nat.le_lt_trans; [apply trim_length|].
  unfold substring_from, clamp_index, strlen. rewrite length_drop. lia.
Qed.

(** The [while (remainingText.length > 0)] loop. The recursion is on the
    remainder, which gets shorter at every iteration. *)
Equations? splitLoop (remainingText : str) (chunks : list str) : list str
  by wf (length remainingText) lt :=
  splitLoop remainingText chunks with decide (0 < strlen remainingText) := {
    | right _ => chunks
    | left _ with decide (strlen remainingText <= MAX_CHARS) := {
      | left _ => chunks ++ [remainingText]
      | right _ =>
          let splitIndex := findSplitIndex remainingText in
          splitLoop (trim (substring_from remainingText splitIndex))
                    (chunks ++ [substring remainingText 0 splitIndex]) } }.
Proof.
  destruct (remainder_shorter remainingText); [assumption|lia].
Qed.

(** One iteration of the loop. *)
Lemma splitLoop_eq r chunks :
  splitLoop r chunks =
  if decide (0 < strlen r) then
    if decide (strlen r <= MAX_CHARS) then chunks ++ [r]
    else splitLoop (trim (substring_from r (findSplitIndex r)))
                   (chunks ++ [substring r 0 (findSplitIndex r)])
  else chunks.
Proof.
  rewrite splitLoop_equation_1.
  destruct (decide (0 < strlen r));
    [rewrite splitLoop_clause_1_equation_1
    |rewrite splitLoop_clause_1_equation_2; reflexivity].
  destruct (decide (strlen r <= MAX_CHARS));
    [rewrite splitLoop_clause_1_clause_2_equation_1
    |rewrite splitLoop_clause_1_clause_2_equation_2]; reflexivity.
Qed.

(** Induction along the iterations of the loop. *)
Lemma splitLoop_induction (P : str -> list str -> list str -> Prop) :
  (forall r chunks, strlen r <= 0 -> P r chunks chunks) ->
  (forall r chunks, 0 < strlen r <= MAX_CHARS -> P r chunks (chunks ++ [r])) ->
  (forall r chunks result,
      MAX_CHARS < strlen r ->
      P (trim (substring_from r (findSplitIndex r)))
        (chunks ++ [substring r 0 (findSplitIndex r)]) result ->
      P r chunks result) ->
  forall r chunks, P r chunks (splitLoop r chunks).
Proof.
  intros Hexit Hlast Hstep r.
  remember (length r) as n eqn:Hn. revert r Hn.
  induction n as [n IH] using lt_wf_ind. intros r Hn chunks.
  rewrite splitLoop_eq.
  destruct (decide (0 < strlen r)); [|apply Hexit; lia].
  destruct (decide (strlen r <= MAX_CHARS)); [apply Hlast; lia|].
  apply Hstep; [lia|].
  destruct (remainder_shorter r) as [Hlt|]; [|lia].
  eapply IH; [|reflexivity]. lia.
Qed.

(** ** Values exchanged with the hosted service *)

Abbreviation byte := Z.

Record JsError := mkError { errName : str; errMessage : str }.

(** [new Error(message)] *)
Definition Error (message : str) : JsError := mkError (js "Error") message.

(** What [fetch] rejects with on a network failure. *)
Definition TypeError (message : str) : JsError := mkError (js "TypeError") message.

(** What [fetch] rejects with once its signal is aborted. *)
Definition AbortError : JsError :=
  mkError (js "AbortError") (js "signal is aborted without reason").

(** The outcome of a call: a value, or an exception on its way up. *)
Inductive Completion (A : Type) : Type :=
| Normal (a : A)
| Throw (e : JsError).
Arguments Normal {A} a.
Arguments Throw {A} e.

Inductive Role := system | user | assistant.

Record ChatMessage := mkMessage { role : Role; content : str }.

Record ChatSession := mkSession { messages : list ChatMessage; systemPrompt : str }.

(** The [body] objects the two modelled callers build. *)
Inductive Body :=
| ChatCompletionBody (model : str) (msgs : list ChatMessage)
                     (max_tokens : Z) (temperature : float)
| SpeechBody (model input voice response_format : str).

(** The [body] option of [fetch]: the form data itself, or
    [JSON.stringify(body)]. *)
Inductive Payload :=
| FormPayload (b : Body)
| JsonPayload (b : Body).

Record FetchCall := mkFetch {
  url : str;
  method : str;
  headers : list (str * str);
  payload : Payload
}.

(** A response body read with [json()], as far as the code looks into it:
    [error?.message] and [choices?.[0]?.message?.content]. Reading either
    off [null] throws. *)
Inductive JsonData :=
| JsonNull
| JsonObject (error_message : option str) (choice_content : option str).

Record Response := mkResponse {
  ok : bool;
  status : Z;
  json : option JsonData;             (* [None]: [json()] rejects *)
  arrayBuffer : option (list byte)    (* [None]: [arrayBuffer()] rejects *)
}.

(** What the network does with one call: a response or a failure after
    [latency] milliseconds, or nothing at all. *)
Inductive NetEvent :=
| Responds (latency : Z) (response : Response)
| NetworkFailure (latency : Z) (message : str)
| NoAnswer.

Record Blob := mkBlob { blobBytes : list byte; blobType : str }.

(** ** The world: calls issued so far and the chat sessions alive *)

Definition loc := nat.

Record World := mkWorld {
  fetched : list FetchCall;
  heap : gmap loc ChatSession
}.

(** What is outside the module: the configured key, and the network,
    whose behaviour may depend on the calls it has already seen. *)
Class Environment := {
  OPENAI_API_KEY : str;
  network : list FetchCall -> FetchCall -> NetEvent
}.

(** Computations that change the world and may throw. *)
Definition M (A : Type) : Type := World -> World * Completion A.

Definition ret {A} (a : A) : M A := fun w => (w, Normal a).

Definition throw {A} (e : JsError) : M A := fun w => (w, Throw e).

Definition bind {A B} (m : M A) (k : A -> M B) : M B :=
  fun w => match m w with
           | (w', Normal a) => k a w'
           | (w', Throw e) => (w', Throw e)
           end.

(** [try { body } catch (error) { handler }]: what [body] did to the world
    before it threw stays done. *)
Definition try_catch {A} (body : M A) (handler : JsError -> M A) : M A :=
  fun w => match body w with
           | (w', Normal a) => (w', Normal a)
           | (w', Throw e) => handler e w'
           end.

Notation "'let*' x ':=' m 'in' k" := (bind m (fun x => k))
  (at level 10, x name, m at level 200, k at level 200, only parsing).

(** [a || b] on strings: the empty string and [undefined] are falsy. *)
Definition orDefault (a : option str) (b : str) : str :=
  match a with
  | Some (c :: a') => c :: a'
  | _ => b
  end.

(** Template interpolation of an integer. *)
Definition decimal (n : Z) : str := js (NilZero.string_of_int (Z.to_int n)).

Definition strEq (a b : str) : bool := bool_decide (a = b).

(** ** The request helper *)

Definition OPENAI_BASE_URL : str := js "https://api.openai.com/v1".

Definition DEFAULT_TIMEOUT_MS : Z := 30000.

Definition TIMEOUT_MESSAGE : str := js "Request timed out. Check your connection.".

(** The timer set with [setTimeout(() => controller.abort(), timeoutMs)]
    fires before the network has answered. *)
Definition timedOut (ev : NetEvent) (timeoutMs : Z) : bool :=
  match ev with
  | Responds latency _ => timeoutMs <? latency
  | NetworkFailure latency _ => timeoutMs <? latency
  | NoAnswer => true
  end.

Section Service.

Context {env : Environment}.

(** [fetch(url, {method, headers, body, signal})] racing the abort timer.
    The call is issued in any case. *)
Definition fetch (call : FetchCall) (timeoutMs : Z) : M Response :=
  fun w =>
    let ev := network (fetched w) call in
    let w' := mkWorld (fetched w ++ [call]) (heap w) in
    if timedOut ev timeoutMs then (w', Throw AbortError)
    else match ev with
         | Responds _ response => (w', Normal response)
         | NetworkFailure _ message => (w', Throw (TypeError message))
         | NoAnswer => (w', Throw AbortError)
         end.

(** [await response.json().catch(() => ({}))] followed by
    [errorData.error?.message]. *)
Definition errorMessageOf (response : Response) : M (option str) :=
  match json response with
  | None => ret None
  | Some JsonNull => throw (TypeError (js "Cannot read properties of null"))
  | Some (JsonObject error_message _) => ret error_message
  end.

Definition openaiRequest (endpoint : str) (body : Body)
    (isFormData : bool) (timeoutMs : Z) : M Response :=
  let headers := [(js "Authorization", js "Bearer " ++ OPENAI_API_KEY)] in
  let headers :=
    if negb isFormData
    then headers ++ [(js "Content-Type", js "application/json")]
    else headers in
  try_catch
    (let* response :=
       fetch (mkFetch (OPENAI_BASE_URL ++ endpoint) (js "POST") headers
                (if isFormData then FormPayload body else JsonPayload body))
             timeoutMs in
     if negb (ok response) then
       let* message := errorMessageOf response in
       throw (Error (orDefault message
                       (js "OpenAI API error: " ++ decimal (status response))))
     else ret response)
    (fun error =>
       if strEq (errName error) (js "AbortError")
       then throw (Error TIMEOUT_MESSAGE)
       else throw error).

(** ** The chat session *)

(** [chat.messages.push(message)] on the session [chat] refers to. *)
Definition pushMessage (chat : loc) (message : ChatMessage) : M unit :=
  fun w =>
    match heap w !! chat with
    | Some session =>
        (mkWorld (fetched w)
           (<[chat := mkSession (messages session ++ [message]) (systemPrompt session)]>
              (heap w)),
         Normal tt)
    | None => (w, Throw (TypeError (js "Cannot read properties of undefined")))
    end.

Definition readSession (chat : loc) : M ChatSession :=
  fun w =>
    match heap w !! chat with
    | Some session => (w, Normal session)
    | None => (w, Throw (TypeError (js "Cannot read properties of undefined")))
    end.

(** [await response.json()] *)
Definition readJson (response : Response) : M JsonData :=
  match json response with
  | Some data => ret data
  | None => throw (mkError (js "SyntaxError") (js "Unexpected token"))
  end.

(** [data.choices?.[0]?.message?.content] *)
Definition choiceContent (data : JsonData) : M (option str) :=
  match data with
  | JsonNull => throw (TypeError (js "Cannot read properties of null"))
  | JsonObject _ choice_content => ret choice_content
  end.

Definition CHAT_FALLBACK : str := js "I'm sorry, I couldn't process that.".

Definition CHAT_ERROR : str :=
  js "An error occurred while communicating with the assistant.".

(** The double written [0.7] in the source. *)
Definition temperature_0_7 : float := 0x1.6666666666666p-1%float.

Definition sendMessageToChat (chat : loc) (message : str) : M str :=
  try_catch
    (let* _ := pushMessage chat (mkMessage user message) in
     let* session := readSession chat in
     let* response :=
       openaiRequest (js "/chat/completions")
         (ChatCompletionBody (js "gpt-4o-mini")
            (mkMessage system (systemPrompt session) :: messages session)
            1000 temperature_0_7)
         false DEFAULT_TIMEOUT_MS in
     let* data := readJson response in
     let* content := choiceContent data in
     let assistantMessage := orDefault content CHAT_FALLBACK in
     let* _ := pushMessage chat (mkMessage assistant assistantMessage) in
     ret assistantMessage)
    (fun error => ret CHAT_ERROR).

(** ** Speech synthesis *)

(** [await response.arrayBuffer()] *)
Definition readArrayBuffer (response : Response) : M (list byte) :=
  match arrayBuffer response with
  | Some bytes => ret bytes
  | None => throw (TypeError (js "Failed to fetch"))
  end.

(** [fetchAudioChunk] of [generateSpeechFromText]; the bytes of the
    [Uint8Array] it returns. *)
Definition fetchAudioChunk (voice : str) (chunk : str) : M (list byte) :=
  let* response :=
    openaiRequest (js "/audio/speech")
      (SpeechBody (js "tts-1") chunk (orDefault (Some voice) (js "alloy")) (js "mp3"))
      false DEFAULT_TIMEOUT_MS in
  let* arrayBuffer := readArrayBuffer response in
  ret arrayBuffer.

(** [for (const chunk of chunks)]: one call at a time, blank chunks
    skipped. *)
Fixpoint fetchChunks (voice : str) (chunks : list str) (audioParts : list (list byte))
  : M (list (list byte)) :=
  match chunks with
  | [] => ret audioParts
  | chunk :: rest =>
      if 0 <? strlen (trim chunk) then
        let* part := fetchAudioChunk voice chunk in
        fetchChunks voice rest (audioParts ++ [part])
      else fetchChunks voice rest audioParts
  end.

End Service.

(** [combinedBytes.set(part, offset)] for a part that fits. *)
Definition typedArraySet (target part : list byte) (offset : nat) : list byte :=
  take offset target ++ part ++ drop (offset + length part) target.

(** The second [for] loop: every part copied at the running offset. *)
Fixpoint copyParts (combinedBytes : list byte) (offset : nat)
    (audioParts : list (list byte)) : list byte :=
  match audioParts with
  | [] => combinedBytes
  | part :: rest =>
      copyParts (typedArraySet combinedBytes part offset) (offset + length part) rest
  end.

(** [audioParts.reduce((acc, part) => acc + part.length, 0)] *)
Definition totalLength (audioParts : list (list byte)) : nat :=
  fold_left (fun acc part => (acc + length part)%nat) audioParts 0%nat.

Definition combine (audioParts : list (list byte)) : list byte :=
  copyParts (replicate (totalLength audioParts) 0) 0 audioParts.

Section Speech.

Context {env : Environment}.

Definition generateSpeechFromText (text voice : str) : M Blob :=
  match text with
  | [] => ret (mkBlob [] (js "audio/mp3"))
  | _ :: _ =>
      try_catch
        (let chunks := splitLoop text [] in
         let* audioParts := fetchChunks voice chunks [] in
         ret (mkBlob (combine audioParts) (js "audio/mpeg")))
        (fun error => throw error)
  end.

End Speech.

(** ** The WAV container *)

(** Sequencing of calls that may throw, for code that leaves the world
    alone. *)
Definition bindC {A B} (m : Completion A) (k : A -> Completion B) : Completion B :=
  match m with
  | Normal a => k a
  | Throw e => Throw e
  end.

Notation "'let?' x ':=' m 'in' k" := (bindC m (fun x => k))
  (at level 10, x name, m at level 200, k at level 200, only parsing).

Module Float64.

(** [Math.min] and [Math.max] of two Numbers: NaN if either is NaN, and
    [-0] counts as smaller than [+0]. *)
Definition Math_min (a b : float) : float :=
  if is_nan a || is_nan b then nan
  else if (a <? b)%float then a
  else if (b <? a)%float then b
  else if get_sign a then a else b.

Definition Math_max (a b : float) : float :=
  if is_nan a || is_nan b then nan
  else if (b <? a)%float then a
  else if (a <? b)%float then b
  else if get_sign a then b else a.

(** The integer part of a Number, rounding toward zero; [0] for NaN and
    the infinities, as [ToIntegerOrInfinity] followed by the modulo step
    of the integer conversions treats them. *)
Definition truncate (x : float) : Z :=
  match Prim2SF x with
  | S754_finite s m e =>
      let magnitude := if 0 <=? e then Z.pos m * 2 ^ e else Z.pos m / 2 ^ (- e) in
      if s then - magnitude else magnitude
  | _ => 0
  end.

(** [ToInt16] *)
Definition ToInt16 (x : float) : Z :=
  let int16bit := truncate x mod 65536 in
  if 32768 <=? int16bit then int16bit - 65536 else int16bit.

End Float64.
Import Float64.

Module DataView.

(** The bytes of the underlying [ArrayBuffer]. *)
Abbreviation t := (list byte).

Definition RangeError : JsError :=
  mkError (js "RangeError") (js "Offset is outside the bounds of the DataView").

(** The setters reduce their value modulo the width of the field and
    throw when the field does not fit in the buffer. *)
Definition setUint8 (view : t) (byteOffset : nat) (value : Z) : Completion t :=
  if (byteOffset + 1 <=? length view)%nat
  then Normal (<[byteOffset := value mod 256]> view)
  else Throw RangeError.

Definition setUint16 (view : t) (byteOffset : nat) (value : Z) (littleEndian : bool)
  : Completion t :=
  if (byteOffset + 2 <=? length view)%nat then
    let v := value mod 65536 in
    let b0 := v mod 256 in
    let b1 := v / 256 in
    Normal (if littleEndian
            then <[S byteOffset := b1]> (<[byteOffset := b0]> view)
            else <[S byteOffset := b0]> (<[byteOffset := b1]> view))
  else Throw RangeError.

Definition setUint32 (view : t) (byteOffset : nat) (value : Z) (littleEndian : bool)
  : Completion t :=
  if (byteOffset + 4 <=? length view)%nat then
    let v := value mod 4294967296 in
    let b0 := v mod 256 in
    let b1 := (v / 256) mod 256 in
    let b2 := (v / 65536) mod 256 in
    let b3 := v / 16777216 in
    Normal (if littleEndian
            then <[S (S (S byteOffset)) := b3]> (<[S (S byteOffset) := b2]>
                   (<[S byteOffset := b1]> (<[byteOffset := b0]> view)))
            else <[S (S (S byteOffset)) := b0]> (<[S (S byteOffset) := b1]>
                   (<[S byteOffset := b2]> (<[byteOffset := b3]> view))))
  else Throw RangeError.

(** [setInt16] of a Number: [ToInt16], stored in two's complement. *)
Definition setInt16 (view : t) (byteOffset : nat) (value : float) (littleEndian : bool)
  : Completion t :=
  setUint16 view byteOffset (ToInt16 value) littleEndian.

(** The getters, to read a container back. *)
Definition getUint16 (view : t) (byteOffset : nat) (littleEndian : bool) : option Z :=
  match view !! byteOffset, view !! S byteOffset with
  | Some x0, Some x1 =>
      Some (if littleEndian then x0 + 256 * x1 else x1 + 256 * x0)
  | _, _ => None
  end.

Definition getInt16 (view : t) (byteOffset : nat) (littleEndian : bool) : option Z :=
  match getUint16 view byteOffset littleEndian with
  | Some v => Some (if 32768 <=? v then v - 65536 else v)
  | None => None
  end.

Definition getUint32 (view : t) (byteOffset : nat) (littleEndian : bool) : option Z :=
  match view !! byteOffset, view !! S byteOffset,
        view !! S (S byteOffset), view !! S (S (S byteOffset)) with
  | Some x0, Some x1, Some x2, Some x3 =>
      Some (if littleEndian
            then x0 + 256 * x1 + 65536 * x2 + 16777216 * x3
            else x3 + 256 * x2 + 65536 * x1 + 16777216 * x0)
  | _, _, _, _ => None
  end.

End DataView.
Import DataView.

(** [writeString] of [float32ArrayToWav]: one code unit per byte. *)
Fixpoint writeString (view : DataView.t) (offset : nat) (s : str)
  : Completion DataView.t :=
  match s with
  | [] => Normal view
  | c :: s' =>
      let? view := setUint8 view offset (Z.of_N c) in
      writeString view (S offset) s'
  end.

(** The Number stored for one sample: clamped, then scaled by [0x8000]
    below zero and by [0x7FFF] otherwise. *)
Definition intSample (x : float) : float :=
  let sample := Math_max (-1)%float (Math_min 1%float x) in
  if (sample <? 0)%float then (sample * 32768)%float else (sample * 32767)%float.

(** The sample loop, [offset] advancing by two bytes per sample. *)
Fixpoint writeSamples (view : DataView.t) (offset : nat) (audioData : list float)
  : Completion DataView.t :=
  match audioData with
  | [] => Normal view
  | x :: rest =>
      let? view := setInt16 view offset (intSample x) true in
      writeSamples view (offset + 2) rest
  end.

Definition float32ArrayToWav (audioData : list float) (sampleRate : Z)
  : Completion Blob :=
  let numChannels := 1 in
  let bitsPerSample := 16 in
  let bytesPerSample := bitsPerSample / 8 in
  let blockAlign := numChannels * bytesPerSample in
  let byteRate := sampleRate * blockAlign in
  let dataSize := Z.of_nat (length audioData) * bytesPerSample in
  let view := replicate (Z.to_nat (44 + dataSize)) 0 in
  let? view := writeString view 0 (js "RIFF") in
  let? view := setUint32 view 4 (36 + dataSize) true in
  let? view := writeString view 8 (js "WAVE") in
  let? view := writeString view 12 (js "fmt ") in
  let? view := setUint32 view 16 16 true in
  let? view := setUint16 view 20 1 true in
  let? view := setUint16 view 22 numChannels true in
  let? view := setUint32 view 24 sampleRate true in
  let? view := setUint32 view 28 byteRate true in
  let? view := setUint16 view 32 blockAlign true in
  let? view := setUint16 view 34 bitsPerSample true in
  let? view := writeString view 36 (js "data") in
  let? view := setUint32 view 40 dataSize true in
  let? view := writeSamples view 44 audioData in
  Normal (mkBlob view (js "audio/wav")).

(** * Properties *)

(** ** The splitting loop *)

Lemma tenth_of_MAX_CHARS : MAX_CHARS_tenth = 400%float /\ truncate MAX_CHARS_tenth = MIN_SPLIT.
Proof. split; vm_compute; reflexivity. Qed.

Lemma boundaryTokens_nonempty tok : tok ∈ boundaryTokens -> tok <> [].
Proof.
  unfold boundaryTokens. rewrite !elem_of_cons, elem_of_nil.
  intros [->|[->|[->|[->|[->|[->|[]]]]]]]; discriminate.
Qed.

Lemma occursAt_inside pat s i :
  pat <> [] -> occursAt pat s i = true -> (i < length s)%nat.
Proof.
  intros Hpat Hocc. destruct (Nat.lt_ge_cases i (length s)) as [|Hge]; [assumption|].
  rewrite (occursAt_beyond pat s i Hpat Hge) in Hocc. discriminate.
Qed.

(** Separators that occur nowhere up to [MAX_CHARS] are passed over. *)
Lemma firstFound_skip r pre rest :
  (forall t k, t ∈ pre -> t <> [] /\
               (Z.of_nat k <= MAX_CHARS -> occursAt t r k = false)) ->
  firstFound r (pre ++ rest) = firstFound r rest.
Proof.
  induction pre as [|t pre IH]; intros Hnone; [reflexivity|]. simpl.
  assert (Ht : lastIndexOf r t MAX_CHARS = -1).
  { destruct (Hnone t 0%nat) as [Hne _]; [left|].
    apply lastIndexOf_none; [exact Hne|unfold MAX_CHARS; lia|].
    intros k Hk. apply (Hnone t k); [left|exact Hk]. }
  rewrite Ht. simpl. apply IH. intros t' k Hin. apply Hnone. right. exact Hin.
Qed.

(** The amount cut off at one iteration. *)
Lemma chunk_length r : 0 <= strlen (substring r 0 (findSplitIndex r)) <= MAX_CHARS + 1.
Proof.
  pose proof (findSplitIndex_range r) as H. unfold MIN_SPLIT in H. split.
  - apply strlen_nonneg.
  - etransitivity; [apply substring_length; lia|lia].
Qed.

(** No chunk is longer than [MAX_CHARS + 1]. *)
Lemma splitLoop_chunk_lengths text :
  Forall (fun chunk => strlen chunk <= MAX_CHARS + 1) (splitLoop text []).
Proof.
  cut (forall r chunks,
          Forall (fun chunk => strlen chunk <= MAX_CHARS + 1) chunks ->
          Forall (fun chunk => strlen chunk <= MAX_CHARS + 1) (splitLoop r chunks)).
  { intros H. apply H. constructor. }
  intros r chunks. apply (splitLoop_induction (fun r chunks result =>
    Forall (fun chunk => strlen chunk <= MAX_CHARS + 1) chunks ->
    Forall (fun chunk => strlen chunk <= MAX_CHARS + 1) result)); clear r chunks.
  - intros r chunks _ H. exact H.
  - intros r chunks Hr H. apply Forall_app. split; [exact H|].
    repeat constructor. lia.
  - intros r chunks result _ IH H. apply IH. apply Forall_app. split; [exact H|].
    repeat constructor. apply chunk_length.
Qed.

(** A text that fits the ceiling is its own single chunk. *)
Lemma short_text_one_chunk text :
  0 < strlen text <= MAX_CHARS -> splitLoop text [] = [text].
Proof.
  intros H. rewrite splitLoop_eq.
  destruct (decide (0 < strlen text)); [|lia].
  destruct (decide (strlen text <= MAX_CHARS)); [reflexivity|lia].
Qed.

(** Ninety sentences of a hundred code units each. *)
Definition sentences_text : str :=
  concat (replicate 90 (replicate 98 97%N ++ js ". ")).

(** The 9000 code units go into three chunks, none above the ceiling, the
    first two ending with the full stop of a sentence. *)
Example sentences_three_chunks :
  map length (splitLoop sentences_text []) = [3999; 3999; 999]%nat /\
  map (fun chunk => last chunk) (splitLoop sentences_text [])
    = [Some 46%N; Some 46%N; Some 46%N].
Proof. split; vm_compute; reflexivity. Qed.

(** A text of 4002 code units whose only space sits at index 4000. *)
Definition overlong_text : str := replicate 4000 97%N ++ js " b".

(** C1. On [overlong_text] the loop produces two chunks, and the first one,
    cut one past the space found at index [MAX_CHARS], has
    [MAX_CHARS + 1 = 4001] code units: a chunk above the ceiling. *)
Theorem chunk_above_ceiling :
  splitLoop overlong_text [] = [replicate 4000 97%N ++ js " "; js "b"] /\
  findSplitIndex overlong_text = MAX_CHARS + 1 /\
  strlen (replicate 4000 97%N ++ js " ") = MAX_CHARS + 1.
Proof. split; [|split]; vm_compute; reflexivity. Qed.

(** Some separator of the source occurs in [r] at index [i]. *)
Definition boundaryAt (r : str) (i : nat) : Prop :=
  exists tok, tok ∈ boundaryTokens /\ occursAt tok r i = true.

(** A sentence end near the start, one space at index 3000, and a word
    that runs across index 4000. *)
Definition early_period_text : str :=
  js "Hi. " ++ replicate 2996 97%N ++ js " " ++ replicate 2000 98%N.

(** C2, as stated, fails: [early_period_text] has a space at index 3000,
    between 10% of the ceiling and the ceiling, yet the split point is the
    hard chop at 4000, which is one past no separator and lies inside the
    word of [b]s. The search stopped at the [". "] of index 2, which is
    too early to be used. *)
Lemma hard_cut_despite_boundary :
  MAX_CHARS < strlen early_period_text /\
  (exists i, MIN_SPLIT <= Z.of_nat i <= MAX_CHARS /\ boundaryAt early_period_text i) /\
  findSplitIndex early_period_text = MAX_CHARS /\
  early_period_text !! 3999%nat = Some 98%N /\
  early_period_text !! 4000%nat = Some 98%N /\
  ~ (exists j, boundaryAt early_period_text j /\
               findSplitIndex early_period_text = Z.of_nat j + 1).
Proof.
  assert (Hsplit : findSplitIndex early_period_text = MAX_CHARS)
    by (vm_compute; reflexivity).
  split; [vm_compute; reflexivity|]. split.
  { exists 3000%nat. split; [unfold MIN_SPLIT, MAX_CHARS; lia|].
    exists (js " "). split; [|vm_compute; reflexivity].
    unfold boundaryTokens. rewrite !elem_of_cons. tauto. }
  split; [exact Hsplit|]. split; [vm_compute; reflexivity|].
  split; [vm_compute; reflexivity|].
  intros (j & (tok & Hin & Hocc) & Hj). rewrite Hsplit in Hj.
  assert (j = 3999%nat) as -> by (unfold MAX_CHARS in Hj; lia).
  unfold boundaryTokens in Hin. rewrite !elem_of_cons, elem_of_nil in Hin.
  destruct Hin as [->|[->|[->|[->|[->|[->|[]]]]]]];
    vm_compute in Hocc; discriminate.
Qed.

(** C2, amended. Take the separator of highest priority that occurs at all
    at or before the ceiling offset. If it occurs at an index between
    [MIN_SPLIT] and [MAX_CHARS], the split point is one past its last such
    occurrence [j]: the chunk is the first [j + 1] code units and ends
    with the first code unit of the separator. *)
Theorem split_after_preferred_boundary r pre tok post i :
  MAX_CHARS < strlen r ->
  boundaryTokens = pre ++ tok :: post ->
  (forall t k, t ∈ pre -> Z.of_nat k <= MAX_CHARS -> occursAt t r k = false) ->
  MIN_SPLIT <= Z.of_nat i <= MAX_CHARS ->
  occursAt tok r i = true ->
  exists j, (i <= j)%nat /\ Z.of_nat j <= MAX_CHARS /\
            occursAt tok r j = true /\
            (forall k, (j < k)%nat -> Z.of_nat k <= MAX_CHARS -> occursAt tok r k = false) /\
            findSplitIndex r = Z.of_nat j + 1 /\
            substring r 0 (findSplitIndex r) = take (S j) r /\
            r !! j = head tok.
Proof.
  intros Hlong Htoks Hpre Hi Hocc.
  assert (Hne : forall t, t ∈ boundaryTokens -> t <> [])
    by (intros t; apply boundaryTokens_nonempty).
  assert (Htok : tok <> []).
  { apply Hne. rewrite Htoks. apply elem_of_app. right. left. }
  assert (Hfound : lastIndexOf r tok MAX_CHARS <> -1).
  { intros Hnone.
    assert (H0 : 0 <= MAX_CHARS) by (unfold MAX_CHARS; lia).
    pose proof (proj1 (lastIndexOf_none r tok MAX_CHARS Htok H0) Hnone) as Hnever.
    rewrite (Hnever i) in Hocc by lia. discriminate. }
  destruct (lastIndexOf_found r tok MAX_CHARS _ ltac:(unfold MAX_CHARS; lia) eq_refl Hfound)
    as (j & Hj & Hjmax & Hjocc & Hlast).
  assert (Hij : (i <= j)%nat).
  { destruct (Nat.le_gt_cases i j) as [|Hgt]; [assumption|].
    rewrite (Hlast i) in Hocc; [discriminate|exact Hgt|lia|].
    apply Nat.lt_le_incl. apply (occursAt_inside tok); [exact Htok|exact Hocc]. }
  assert (Hsearch : searchBoundary r = Z.of_nat j).
  { rewrite searchBoundary_cascade, Htoks, firstFound_skip.
    - simpl. destruct (lastIndexOf r tok MAX_CHARS =? -1) eqn:E; [|exact Hj].
      apply Z.eqb_eq in E. contradiction.
    - intros t k Hin. split; [|intros Hk; apply Hpre; assumption].
      apply Hne. rewrite Htoks. apply elem_of_app. left. exact Hin. }
  assert (Hsplit : findSplitIndex r = Z.of_nat j + 1).
  { unfold findSplitIndex. rewrite Hsearch.
    destruct (Z.of_nat j =? -1) eqn:E1; [apply Z.eqb_eq in E1; lia|].
    destruct (Z.of_nat j <? MIN_SPLIT) eqn:E2; [apply Z.ltb_lt in E2; lia|].
    reflexivity. }
  exists j. repeat split; try assumption.
  - intros k Hk Hmax. destruct (Nat.le_gt_cases k (length r)) as [Hin|Hout].
    + apply Hlast; assumption.
    + apply occursAt_beyond; [exact Htok|lia].
  - rewrite Hsplit, substring_prefix. f_equal.
    pose proof (occursAt_inside tok r j Htok Hjocc).
    rewrite clamp_index_inside; unfold strlen; lia.
  - destruct tok as [|c tok']; [congruence|].
    simpl. apply (occursAt_lookup c tok'). exact Hjocc.
Qed.

Lemma trimStart_sublist s : trimStart s `sublist_of` s.
Proof.
  induction s as [|c s IH]; simpl; [constructor|].
  destruct (isWhiteSpace c); [apply sublist_cons; exact IH|reflexivity].
Qed.

Lemma rev_sublist (s t : str) : s `sublist_of` t -> rev s `sublist_of` rev t.
Proof.
  induction 1 as [|c s t _ IH|c s t _ IH]; simpl.
  - constructor.
  - apply sublist_app; [exact IH|reflexivity].
  - rewrite <- (app_nil_r (rev s)). apply sublist_app; [exact IH|apply sublist_nil_l].
Qed.

(** Trimming only removes code units. *)
Lemma trim_sublist s : trim s `sublist_of` s.
Proof.
  unfold trim, trimEnd. transitivity (trimStart s); [|apply trimStart_sublist].
  rewrite <- (rev_involutive (trimStart s)) at 2.
  apply rev_sublist, trimStart_sublist.
Qed.

(** C3. The chunks, put end to end, hold the code units of the text that
    are not white space, all of them and in their order, and nothing that
    was not in the text: they are the text with some code units left out,
    and the only code units left out are white space, which [trim] strips
    from the remainders. *)
Theorem chunks_keep_non_whitespace text :
  nonWhiteSpace (concat (splitLoop text [])) = nonWhiteSpace text /\
  concat (splitLoop text []) `sublist_of` text.
Proof.
  cut (forall r chunks,
          nonWhiteSpace (concat (splitLoop r chunks)) =
            nonWhiteSpace (concat chunks) ++ nonWhiteSpace r /\
          concat (splitLoop r chunks) `sublist_of` concat chunks ++ r).
  { intros H. destruct (H text []) as [Hkeep Hsub]. split; assumption. }
  intros r chunks. apply (splitLoop_induction (fun r chunks result =>
    nonWhiteSpace (concat result) =
      nonWhiteSpace (concat chunks) ++ nonWhiteSpace r /\
    concat result `sublist_of` concat chunks ++ r)); clear r chunks.
  - intros r chunks Hr. destruct r; [|unfold strlen in Hr; simpl in Hr; lia].
    simpl. rewrite !app_nil_r. split; reflexivity.
  - intros r chunks _. rewrite concat_app, nonWhiteSpace_app. simpl.
    rewrite !app_nil_r. split; reflexivity.
  - intros r chunks result _ [IHkeep IHsub]. split.
    + rewrite IHkeep.
      rewrite concat_app, nonWhiteSpace_app, nonWhiteSpace_trim. simpl.
      rewrite app_nil_r, <- app_assoc, <- nonWhiteSpace_app, substring_cut.
      reflexivity.
    + etransitivity; [exact IHsub|].
      rewrite concat_app. simpl. rewrite app_nil_r, <- app_assoc.
      apply sublist_app; [reflexivity|].
      assert (Hcut : substring r 0 (findSplitIndex r)
                       ++ trim (substring_from r (findSplitIndex r))
                     `sublist_of` substring r 0 (findSplitIndex r)
                       ++ substring_from r (findSplitIndex r))
        by (apply sublist_app; [reflexivity|apply trim_sublist]).
      rewrite substring_cut in Hcut. exact Hcut.
Qed.

(** ** The request helper *)

(** The world after further calls have been issued. *)
Definition record (w : World) (calls : list FetchCall) : World :=
  mkWorld (fetched w ++ calls) (heap w).

Lemma record_nil w : record w [] = w.
Proof. destruct w. unfold record. simpl. rewrite app_nil_r. reflexivity. Qed.

Lemma record_record w calls calls' :
  record (record w calls) calls' = record w (calls ++ calls').
Proof. unfold record. simpl. rewrite app_assoc. reflexivity. Qed.

Section RequestFacts.

Context {env : Environment}.

(** The one [fetch] call a request makes. *)
Definition issued (endpoint : str) (body : Body) (isFormData : bool) : FetchCall :=
  mkFetch (OPENAI_BASE_URL ++ endpoint) (js "POST")
    ((js "Authorization", js "Bearer " ++ OPENAI_API_KEY)
       :: (if isFormData then [] else [(js "Content-Type", js "application/json")]))
    (if isFormData then FormPayload body else JsonPayload body).

(** How a request ends, given what the network did with its call. *)
Definition requestOutcome (ev : NetEvent) (timeoutMs : Z) : Completion Response :=
  if timedOut ev timeoutMs then Throw (Error TIMEOUT_MESSAGE)
  else match ev with
       | Responds _ response =>
           if ok response then Normal response
           else match json response with
                | Some JsonNull => Throw (TypeError (js "Cannot read properties of null"))
                | Some (JsonObject error_message _) =>
                    Throw (Error (orDefault error_message
                                    (js "OpenAI API error: " ++ decimal (status response))))
                | None =>
                    Throw (Error (js "OpenAI API error: " ++ decimal (status response)))
                end
       | NetworkFailure _ message => Throw (TypeError message)
       | NoAnswer => Throw (Error TIMEOUT_MESSAGE)
       end.

(** A request issues exactly one call, whatever its outcome. *)
Lemma openaiRequest_run endpoint body isFormData timeoutMs w :
  openaiRequest endpoint body isFormData timeoutMs w =
  (record w [issued endpoint body isFormData],
   requestOutcome (network (fetched w) (issued endpoint body isFormData)) timeoutMs).
Proof.
  unfold openaiRequest, try_catch, bind, fetch, requestOutcome, issued, record.
  destruct isFormData; simpl;
    match goal with
    | |- context [timedOut ?ev timeoutMs] =>
        destruct (timedOut ev timeoutMs) eqn:Hto; [reflexivity|];
        destruct ev as [latency response|latency message|] eqn:Hev
    end;
    try reflexivity; try discriminate;
    (destruct (ok response); simpl; [reflexivity|];
     unfold errorMessageOf;
     destruct (json response) as [[|error_message content]|]; reflexivity).
Qed.

End RequestFacts.

(** A network that never answers, and a service that answers 504 with
    an error body whose message is the text of the timeout failure. *)
Definition silentNetwork : Environment :=
  {| OPENAI_API_KEY := js "sk-test"; network := fun _ _ => NoAnswer |}.

Definition gatewayTimeout : Response :=
  mkResponse false 504 (Some (JsonObject (Some TIMEOUT_MESSAGE) None)) None.

Definition echoingService : Environment :=
  {| OPENAI_API_KEY := js "sk-test";
     network := fun _ _ => Responds 120 gatewayTimeout |}.

Definition emptyWorld : World := mkWorld [] ∅.

Definition helloSpeech : Body :=
  SpeechBody (js "tts-1") (js "Hello.") (js "alloy") (js "mp3").

(** C6, as stated, fails: the request to [echoingService] is answered
    after 120 ms, well within the wait, with a non-success status, and
    ends in the very failure a timed-out request ends in. The message the
    service reports is passed on verbatim, so a status failure can carry
    the timeout text. *)
Lemma status_failure_same_as_timeout :
  timedOut (@network silentNetwork []
              (@issued silentNetwork (js "/audio/speech") helloSpeech false))
           DEFAULT_TIMEOUT_MS = true /\
  timedOut (@network echoingService []
              (@issued echoingService (js "/audio/speech") helloSpeech false))
           DEFAULT_TIMEOUT_MS = false /\
  snd (@openaiRequest silentNetwork (js "/audio/speech") helloSpeech false
         DEFAULT_TIMEOUT_MS emptyWorld) = Throw (Error TIMEOUT_MESSAGE) /\
  snd (@openaiRequest echoingService (js "/audio/speech") helloSpeech false
         DEFAULT_TIMEOUT_MS emptyWorld) = Throw (Error TIMEOUT_MESSAGE).
Proof. split; [|split; [|split]]; vm_compute; reflexivity. Qed.

Lemma Throw_Error_inj {A} (a b : str) :
  @Throw A (Error a) = Throw (Error b) -> a = b.
Proof. intros H. inversion H. reflexivity. Qed.

Lemma status_fallback_not_timeout n :
  js "OpenAI API error: " ++ decimal n <> TIMEOUT_MESSAGE.
Proof. intros H. simpl in H. discriminate. Qed.

(** C6, amended. A request whose wait elapses before the network answers
    fails with [Error TIMEOUT_MESSAGE]. A request that was answered in
    time ends in that failure in one case only: a non-success response
    whose error body itself reports that text. So the timeout failure
    differs from every network failure, which is a [TypeError], and from
    every status failure that carries another reported message or the
    numeric-status message. *)
Theorem timeout_failure_is_specific `{env : Environment}
    endpoint body isFormData timeoutMs w :
  timedOut (network (fetched w) (issued endpoint body isFormData)) timeoutMs = true ->
  snd (openaiRequest endpoint body isFormData timeoutMs w)
    = Throw (Error TIMEOUT_MESSAGE) /\
  forall (env' : Environment) endpoint' body' isFormData' timeoutMs' w',
    let ev := @network env' (fetched w') (@issued env' endpoint' body' isFormData') in
    timedOut ev timeoutMs' = false ->
    snd (@openaiRequest env' endpoint' body' isFormData' timeoutMs' w')
      = Throw (Error TIMEOUT_MESSAGE) ->
    exists latency response content,
      ev = Responds latency response /\ ok response = false /\
      json response = Some (JsonObject (Some TIMEOUT_MESSAGE) content).
Proof.
  intros Hto. split.
  - rewrite openaiRequest_run. simpl. unfold requestOutcome. rewrite Hto. reflexivity.
  - intros env' endpoint' body' isFormData' timeoutMs' w' ev Hin.
    rewrite openaiRequest_run. simpl. fold ev. unfold requestOutcome. rewrite Hin.
    destruct ev as [latency response|latency message|]; [|discriminate|discriminate].
    destruct (ok response) eqn:Hok; [discriminate|].
    destruct (json response) as [[|error_message content]|] eqn:Hjson.
    + discriminate.
    + intros H. apply Throw_Error_inj in H.
      destruct error_message as [[|c m]|]; unfold orDefault in H.
      * exfalso. apply (status_fallback_not_timeout (status response)). exact H.
      * exists latency, response, content.
        split; [reflexivity|]. split; [exact Hok|]. rewrite Hjson, H. reflexivity.
      * exfalso. apply (status_fallback_not_timeout (status response)). exact H.
    + intros H. apply Throw_Error_inj in H. exfalso.
      apply (status_fallback_not_timeout (status response)). exact H.
Qed.

Lemma timeout_failure_is_specific_witness :
  snd (@openaiRequest silentNetwork (js "/audio/speech") helloSpeech false
         DEFAULT_TIMEOUT_MS emptyWorld) = Throw (Error TIMEOUT_MESSAGE).
Proof.
  apply (@timeout_failure_is_specific silentNetwork (js "/audio/speech") helloSpeech
           false DEFAULT_TIMEOUT_MS emptyWorld).
  reflexivity.
Defined.

(** ** The chat session *)

(** The assistant's reply a finished request yields, if any: the response
    must have arrived with a success status and a body that parses to
    something other than [null]. *)
Definition replyOf (outcome : Completion Response) : option str :=
  match outcome with
  | Normal response =>
      match json response with
      | Some (JsonObject _ choice_content) => Some (orDefault choice_content CHAT_FALLBACK)
      | _ => None
      end
  | Throw _ => None
  end.

(** The body of the call [sendMessageToChat] makes for a session that
    already holds the user's message. *)
Definition chatBody (session : ChatSession) : Body :=
  ChatCompletionBody (js "gpt-4o-mini")
    (mkMessage system (systemPrompt session) :: messages session)
    1000 temperature_0_7.

(** [session] with further turns at the end of its history. *)
Definition extended (session : ChatSession) (turns : list ChatMessage) : ChatSession :=
  mkSession (messages session ++ turns) (systemPrompt session).

(** C9. The user's message is appended to the session before the call is
    issued: the call's body lists it last. When the call yields a reply,
    the reply is appended too and returned, so the history has grown by the
    two turns, user then assistant. When it yields none, the history keeps
    the user's message and nothing else, and the placeholder text is
    returned. The function never throws. *)
Theorem sendMessageToChat_history `{env : Environment} chat message w session :
  heap w !! chat = Some session ->
  let asked := extended session [mkMessage user message] in
  let call := issued (js "/chat/completions") (chatBody asked) false in
  let outcome := requestOutcome (network (fetched w) call) DEFAULT_TIMEOUT_MS in
  fetched (fst (sendMessageToChat chat message w)) = fetched w ++ [call] /\
  (forall reply, replyOf outcome = Some reply ->
     snd (sendMessageToChat chat message w) = Normal reply /\
     heap (fst (sendMessageToChat chat message w)) =
       <[chat := extended session [mkMessage user message; mkMessage assistant reply]]>
         (heap w)) /\
  (replyOf outcome = None ->
     snd (sendMessageToChat chat message w) = Normal CHAT_ERROR /\
     heap (fst (sendMessageToChat chat message w)) = <[chat := asked]> (heap w)).
Proof.
  intros Hchat asked call outcome.
  assert (Hrun : sendMessageToChat chat message w =
    match replyOf outcome with
    | Some reply =>
        (mkWorld (fetched w ++ [call])
           (<[chat := extended session [mkMessage user message; mkMessage assistant reply]]>
              (heap w)),
         Normal reply)
    | None => (mkWorld (fetched w ++ [call]) (<[chat := asked]> (heap w)), Normal CHAT_ERROR)
    end).
  { unfold sendMessageToChat, try_catch, bind at 1. unfold pushMessage at 1.
    rewrite Hchat. unfold bind at 1. unfold readSession. simpl heap.
    rewrite lookup_insert_eq. unfold bind at 1. rewrite openaiRequest_run.
    simpl fetched.
    change (requestOutcome (network (fetched w) _) DEFAULT_TIMEOUT_MS) with outcome.
    change (issued (js "/chat/completions") _ false) with call.
    unfold replyOf. destruct outcome as [response|e]; [|reflexivity].
    unfold bind at 1, readJson.
    destruct (json response) as [[|error_message content]|]; try reflexivity.
    unfold ret at 1, bind at 1, choiceContent, ret at 1, bind, pushMessage.
    simpl. rewrite lookup_insert_eq, insert_insert_eq. unfold ret, extended, asked.
    simpl. rewrite <- app_assoc. reflexivity. }
  rewrite Hrun. destruct (replyOf outcome) as [reply|]; simpl.
  - split; [reflexivity|]. split; [|discriminate].
    intros reply' [= <-]. split; reflexivity.
  - split; [reflexivity|]. split; [discriminate|]. intros _. split; reflexivity.
Qed.

(** A service that answers every chat call with the reply ["4"]. *)
Definition answering : Environment :=
  {| OPENAI_API_KEY := js "sk-test";
     network := fun _ _ =>
       Responds 250 (mkResponse true 200 (Some (JsonObject None (Some (js "4")))) None) |}.

Definition mathsSession : ChatSession := mkSession [] (js "You are a helpful assistant.").

Definition oneChat : World := mkWorld [] {[ 0%nat := mathsSession ]}.

Lemma sendMessageToChat_history_witness :
  snd (@sendMessageToChat answering 0%nat (js "2+2?") oneChat) = Normal (js "4") /\
  heap (fst (@sendMessageToChat answering 0%nat (js "2+2?") oneChat)) =
    <[0%nat := extended mathsSession
                 [mkMessage user (js "2+2?"); mkMessage assistant (js "4")]]>
      (heap oneChat).
Proof.
  destruct (@sendMessageToChat_history answering 0%nat (js "2+2?") oneChat mathsSession
              eq_refl) as (_ & Hreply & _).
  apply Hreply. reflexivity.
Defined.

(** With no answer from the network the session keeps the question and
    the caller gets the placeholder. *)
Example sendMessageToChat_unanswered :
  @sendMessageToChat silentNetwork 0%nat (js "2+2?") oneChat =
  (mkWorld [@issued silentNetwork (js "/chat/completions")
              (chatBody (extended mathsSession [mkMessage user (js "2+2?")])) false]
           {[ 0%nat := extended mathsSession [mkMessage user (js "2+2?")] ]},
   Normal CHAT_ERROR).
Proof. vm_compute. reflexivity. Qed.

(** ** Speech synthesis *)

(** The copy loop lays the parts end to end. *)
Lemma copyParts_concat parts done rest :
  length rest = length (concat parts) ->
  copyParts (done ++ rest) (length done) parts = done ++ concat parts.
Proof.
  revert done rest. induction parts as [|part parts IH]; intros done rest Hlen; simpl in *.
  - destruct rest; [reflexivity|discriminate].
  - rewrite length_app in Hlen. unfold typedArraySet.
    rewrite take_app_length, drop_app_add.
    rewrite (app_assoc done part), <- length_app.
    rewrite IH; [rewrite <- app_assoc; reflexivity|].
    rewrite length_drop. lia.
Qed.

Lemma totalLength_concat parts : totalLength parts = length (concat parts).
Proof.
  unfold totalLength.
  cut (forall n, fold_left (fun acc part => (acc + length part)%nat) parts n
                 = (n + length (concat parts))%nat).
  { intros H. apply H. }
  induction parts as [|part parts IH]; intros n; simpl; [lia|].
  rewrite IH, length_app. lia.
Qed.

(** The stitched buffer is the concatenation of the parts, so its length
    is the sum of theirs. *)
Lemma combine_concat parts : combine parts = concat parts.
Proof.
  unfold combine. apply (copyParts_concat parts []).
  rewrite length_replicate. apply totalLength_concat.
Qed.

(** The chunks that are sent: those with something left after trimming. *)
Definition dispatched (text : str) : list str :=
  List.filter (fun chunk => 0 <? strlen (trim chunk)) (splitLoop text []).

Section SpeechFacts.

Context {env : Environment}.

(** The call made for one chunk. *)
Definition speechCall (voice chunk : str) : FetchCall :=
  issued (js "/audio/speech")
    (SpeechBody (js "tts-1") chunk (orDefault (Some voice) (js "alloy")) (js "mp3"))
    false.

Lemma fetchAudioChunk_run voice chunk w :
  fetchAudioChunk voice chunk w =
  (record w [speechCall voice chunk],
   match requestOutcome (network (fetched w) (speechCall voice chunk))
           DEFAULT_TIMEOUT_MS with
   | Normal response =>
       match arrayBuffer response with
       | Some bytes => Normal bytes
       | None => Throw (TypeError (js "Failed to fetch"))
       end
   | Throw e => Throw e
   end).
Proof.
  unfold fetchAudioChunk, bind. rewrite openaiRequest_run. fold (speechCall voice chunk).
  destruct (requestOutcome _ _) as [response|e]; [|reflexivity].
  unfold readArrayBuffer. destruct (arrayBuffer response); reflexivity.
Qed.

Lemma fetchAudioChunk_world voice chunk w :
  fst (fetchAudioChunk voice chunk w) = record w [speechCall voice chunk].
Proof. rewrite fetchAudioChunk_run. reflexivity. Qed.

(** The first failing call ends the loop: the calls made are those for
    the chunks up to the failing one. *)
Lemma fetchChunks_failure voice chunks :
  forall w audioParts k chunk e,
    let sent := List.filter (fun chunk => 0 <? strlen (trim chunk)) chunks in
    sent !! k = Some chunk ->
    (forall j c, (j < k)%nat -> sent !! j = Some c ->
       exists part,
         snd (fetchAudioChunk voice c (record w (map (speechCall voice) (take j sent))))
         = Normal part) ->
    snd (fetchAudioChunk voice chunk (record w (map (speechCall voice) (take k sent))))
      = Throw e ->
    fetchChunks voice chunks audioParts w =
    (record w (map (speechCall voice) (take (S k) sent)), Throw e).
Proof.
  induction chunks as [|c chunks IH]; intros w audioParts k chunk e sent Hk Hbefore Hfail.
  - subst sent. simpl in Hk. rewrite lookup_nil in Hk. discriminate.
  - subst sent. simpl in *. destruct (0 <? strlen (trim c)) eqn:Hblank.
    + unfold bind. destruct k as [|k].
      * simpl in *. injection Hk as ->. rewrite record_nil in Hfail.
        rewrite (surjective_pairing (fetchAudioChunk voice chunk w)).
        rewrite fetchAudioChunk_world, Hfail. simpl. rewrite ?take_0. reflexivity.
      * simpl in Hk.
        destruct (Hbefore 0%nat c ltac:(lia) eq_refl) as [part Hpart].
        simpl in Hpart. rewrite record_nil in Hpart.
        rewrite (surjective_pairing (fetchAudioChunk voice c w)).
        rewrite fetchAudioChunk_world, Hpart.
        rewrite (IH _ _ k chunk e Hk).
        -- rewrite record_record. reflexivity.
        -- intros j c' Hj Hc'.
           destruct (Hbefore (S j) c' ltac:(lia) Hc') as [part' Hpart'].
           exists part'. simpl in Hpart'. rewrite record_record. exact Hpart'.
        -- rewrite record_record. exact Hfail.
    + apply (IH w audioParts k chunk e Hk Hbefore Hfail).
Qed.

(** C4. For the empty text the result is there at once, whatever the
    network would do: a blob with no bytes is returned and the world is
    left as it was, so no call has been issued. *)
Theorem empty_text_no_calls voice w :
  exists blob,
    generateSpeechFromText [] voice w = (w, Normal blob) /\
    blobBytes blob = [] /\
    fetched (fst (generateSpeechFromText [] voice w)) = fetched w.
Proof. exists (mkBlob [] (js "audio/mp3")). repeat split. Qed.

(** C5. If the call for the chunk at position [k] of the chunks sent fails
    with [e], the calls before it having succeeded, then the whole
    operation fails with [e], no blob is returned, and the calls issued
    are those for the chunks at positions [0 .. k] and no others. *)
Theorem chunk_failure_aborts text voice w k chunk e :
  dispatched text !! k = Some chunk ->
  (forall j c, (j < k)%nat -> dispatched text !! j = Some c ->
     exists part,
       snd (fetchAudioChunk voice c
              (record w (map (speechCall voice) (take j (dispatched text)))))
       = Normal part) ->
  snd (fetchAudioChunk voice chunk
         (record w (map (speechCall voice) (take k (dispatched text)))))
    = Throw e ->
  generateSpeechFromText text voice w =
  (record w (map (speechCall voice) (take (S k) (dispatched text))), Throw e).
Proof.
  intros Hk Hbefore Hfail. unfold generateSpeechFromText.
  destruct text as [|c text].
  - unfold dispatched in Hk. rewrite splitLoop_eq in Hk. simpl in Hk.
    rewrite lookup_nil in Hk. discriminate.
  - unfold try_catch, bind.
    rewrite (fetchChunks_failure voice (splitLoop (c :: text) []) w [] k chunk e
               Hk Hbefore Hfail).
    reflexivity.
Qed.

(** C10. The type declared on the returned blob depends on the text:
    ['audio/mp3'] for the empty text, ['audio/mpeg'] for any other text
    for which a blob is returned; the two differ. *)
Theorem blob_type_depends_on_text text voice w w' blob :
  generateSpeechFromText text voice w = (w', Normal blob) ->
  (text = [] -> blobType blob = js "audio/mp3") /\
  (text <> [] -> blobType blob = js "audio/mpeg") /\
  js "audio/mp3" <> js "audio/mpeg".
Proof.
  intros Hrun. unfold generateSpeechFromText in Hrun. destruct text as [|c text].
  - injection Hrun as _ <-. repeat split; [congruence|discriminate].
  - unfold try_catch, bind in Hrun.
    destruct (fetchChunks voice (splitLoop (c :: text) []) [] w) as [w1 [parts|e]];
      [|discriminate].
    injection Hrun as _ <-. repeat split; [discriminate|discriminate].
Qed.

End SpeechFacts.

(** A service answering every call with three bytes of audio. *)
Definition audioService : Environment :=
  {| OPENAI_API_KEY := js "sk-test";
     network := fun _ _ => Responds 300 (mkResponse true 200 None (Some [73; 68; 51])) |}.

(** The same service, except that the second call it sees is lost. *)
Definition flakyService : Environment :=
  {| OPENAI_API_KEY := js "sk-test";
     network := fun history _ =>
       match history with
       | [_] => NetworkFailure 40 (js "Failed to fetch")
       | _ => Responds 300 (mkResponse true 200 None (Some [73; 68; 51]))
       end |}.

(** A text with one comma at index 3000 and no other separator. *)
Definition comma_text : str :=
  replicate 3000 97%N ++ js ", " ++ replicate 2000 98%N.

Lemma split_after_preferred_boundary_witness :
  exists j, (3000 <= j)%nat /\ Z.of_nat j <= MAX_CHARS /\
            occursAt (js ", ") comma_text j = true /\
            (forall k, (j < k)%nat -> Z.of_nat k <= MAX_CHARS ->
                       occursAt (js ", ") comma_text k = false) /\
            findSplitIndex comma_text = Z.of_nat j + 1 /\
            substring comma_text 0 (findSplitIndex comma_text) = take (S j) comma_text /\
            comma_text !! j = head (js ", ").
Proof.
  apply (split_after_preferred_boundary comma_text
           [js ". "; js "? "; js "! "; LF] (js ", ") [js " "] 3000%nat).
  - vm_compute. reflexivity.
  - reflexivity.
  - intros t k Hin Hk. rewrite !elem_of_cons, elem_of_nil in Hin.
    assert (H0 : 0 <= MAX_CHARS) by (vm_compute; discriminate).
    destruct Hin as [->|[->|[->|[->|[]]]]];
      (refine (proj1 (lastIndexOf_none comma_text _ MAX_CHARS _ H0) _ k Hk);
       [discriminate|vm_compute; reflexivity]).
  - vm_compute. split; discriminate.
  - vm_compute. reflexivity.
Defined.

Lemma chunk_failure_aborts_witness :
  @generateSpeechFromText flakyService overlong_text (js "nova") emptyWorld =
  (record emptyWorld
     (map (@speechCall flakyService (js "nova")) (take 2 (dispatched overlong_text))),
   Throw (TypeError (js "Failed to fetch"))).
Proof.
  apply (@chunk_failure_aborts flakyService overlong_text (js "nova") emptyWorld
           1%nat (js "b") (TypeError (js "Failed to fetch"))).
  - vm_compute. reflexivity.
  - intros j c Hj Hc. assert (j = 0%nat) as -> by lia.
    exists [73; 68; 51].
    assert (Hfirst : Some c = Some (replicate 4000 97%N ++ js " "))
      by (rewrite <- Hc; vm_compute; reflexivity).
    injection Hfirst as ->.
    vm_compute. reflexivity.
  - vm_compute. reflexivity.
Defined.

Lemma blob_type_depends_on_text_witness :
  (js "Hello." = [] -> blobType (mkBlob [73; 68; 51] (js "audio/mpeg")) = js "audio/mp3") /\
  (js "Hello." <> [] -> blobType (mkBlob [73; 68; 51] (js "audio/mpeg")) = js "audio/mpeg") /\
  js "audio/mp3" <> js "audio/mpeg".
Proof.
  apply (@blob_type_depends_on_text audioService (js "Hello.") (js "nova") emptyWorld
           (record emptyWorld [@speechCall audioService (js "nova") (js "Hello.")])).
  vm_compute. reflexivity.
Defined.

(** ** The WAV container *)

(** The little-endian bytes [setUint16] and [setUint32] store. *)
Definition le16 (value : Z) : list byte :=
  let v := value mod 65536 in [v mod 256; v / 256].

Definition le32 (value : Z) : list byte :=
  let v := value mod 4294967296 in
  [v mod 256; (v / 256) mod 256; (v / 65536) mod 256; v / 16777216].

(** The 44 bytes of the header for [n] samples. *)
Definition wavHeader (n : nat) (sampleRate : Z) : list byte :=
  let dataSize := Z.of_nat n * 2 in
  [82; 73; 70; 70] ++ le32 (36 + dataSize) ++
  [87; 65; 86; 69] ++ [102; 109; 116; 32] ++ le32 16 ++ le16 1 ++ le16 1 ++
  le32 sampleRate ++ le32 (sampleRate * 2) ++ le16 2 ++ le16 16 ++
  [100; 97; 116; 97] ++ le32 dataSize.

(** The sample as the specification words it: clamped to [-1, 1], then
    scaled into the 16-bit range and converted. NaN stays NaN through the
    clamp and is stored as 0. *)
Definition clampSample (x : float) : float :=
  if is_nan x then nan
  else if (1 <? x)%float then 1%float
  else if (x <? -1)%float then (-1)%float
  else x.

Definition scaleSample (c : float) : float :=
  if (c <? 0)%float then (c * 32768)%float else (c * 32767)%float.

Definition pcm16 (x : float) : Z := ToInt16 (scaleSample (clampSample x)).

(** The two bytes stored for one sample. *)
Definition pcmBytes (x : float) : list byte := le16 (pcm16 x).

(** What the source computes with [Math.max(-1, Math.min(1, x))] is the
    clamp. *)
Lemma clamp_refines x :
  Math_max (-1)%float (Math_min 1%float x) = clampSample x.
Proof.
  unfold clampSample, Math_min.
  change (is_nan 1%float) with false. change (get_sign 1%float) with false.
  cbn [orb]. destruct (is_nan x) eqn:Hnan.
  - reflexivity.
  - destruct (1 <? x)%float eqn:Habove.
    + reflexivity.
    + assert (Hmin : (if (x <? 1)%float then x else x) = x)
        by (destruct (x <? 1)%float; reflexivity).
      rewrite Hmin. unfold Math_max.
      change (is_nan (-1)%float) with false. change (get_sign (-1)%float) with true.
      rewrite Hnan. cbn [orb].
      destruct (x <? -1)%float; [reflexivity|].
      destruct (-1 <? x)%float; reflexivity.
Qed.

Lemma intSample_refines x : intSample x = scaleSample (clampSample x).
Proof. unfold intSample. cbv zeta. rewrite clamp_refines. reflexivity. Qed.

Lemma setUint8_prefix hdr rest offset value :
  (offset + 1 <= length hdr)%nat ->
  setUint8 (hdr ++ rest) offset value =
  bindC (setUint8 hdr offset value) (fun h => Normal (h ++ rest)).
Proof.
  intros H. unfold setUint8. rewrite length_app.
  rewrite !(proj2 (Nat.leb_le _ _)) by lia. cbn [bindC].
  rewrite insert_app_l by lia. reflexivity.
Qed.

Lemma setUint16_prefix hdr rest offset value littleEndian :
  (offset + 2 <= length hdr)%nat ->
  setUint16 (hdr ++ rest) offset value littleEndian =
  bindC (setUint16 hdr offset value littleEndian) (fun h => Normal (h ++ rest)).
Proof.
  intros H. unfold setUint16. rewrite length_app.
  rewrite !(proj2 (Nat.leb_le _ _)) by lia. cbn [bindC].
  destruct littleEndian;
    rewrite !insert_app_l by (rewrite ?length_insert; lia); reflexivity.
Qed.

Lemma setUint32_prefix hdr rest offset value littleEndian :
  (offset + 4 <= length hdr)%nat ->
  setUint32 (hdr ++ rest) offset value littleEndian =
  bindC (setUint32 hdr offset value littleEndian) (fun h => Normal (h ++ rest)).
Proof.
  intros H. unfold setUint32. rewrite length_app.
  rewrite !(proj2 (Nat.leb_le _ _)) by lia. cbn [bindC].
  destruct littleEndian;
    rewrite !insert_app_l by (rewrite ?length_insert; lia); reflexivity.
Qed.

Lemma writeString_prefix s : forall hdr rest offset,
  (offset + length s <= length hdr)%nat ->
  writeString (hdr ++ rest) offset s =
  bindC (writeString hdr offset s) (fun h => Normal (h ++ rest)).
Proof.
  induction s as [|c s IH]; intros hdr rest offset H; simpl in *; [reflexivity|].
  rewrite setUint8_prefix by lia. unfold setUint8.
  rewrite (proj2 (Nat.leb_le _ _)) by lia. cbn [bindC].
  apply IH. rewrite length_insert. lia.
Qed.

Lemma setUint16_at_end done x0 x1 rest value :
  setUint16 (done ++ x0 :: x1 :: rest) (length done) value true =
  Normal (done ++ le16 value ++ rest).
Proof.
  unfold setUint16. rewrite length_app. simpl length.
  rewrite (proj2 (Nat.leb_le _ _)) by lia. f_equal.
  rewrite (insert_app_r_alt done _ (length done)) by lia.
  rewrite Nat.sub_diag. simpl.
  rewrite (insert_app_r_alt done _ (S (length done))) by lia.
  replace (S (length done) - length done)%nat with 1%nat by lia.
  reflexivity.
Qed.

(** The sample loop fills a zeroed data area with the samples' bytes. *)
Lemma writeSamples_fill audioData : forall done,
  writeSamples (done ++ replicate (2 * length audioData) 0) (length done) audioData =
  Normal (done ++ flat_map pcmBytes audioData).
Proof.
  induction audioData as [|x rest IH]; intros done.
  - simpl. reflexivity.
  - simpl length. replace (2 * S (length rest))%nat with (S (S (2 * length rest))) by lia.
    simpl replicate. simpl writeSamples. unfold setInt16.
    rewrite setUint16_at_end, intSample_refines. cbn [bindC].
    fold (pcm16 x). fold (pcmBytes x).
    replace (length done + 2)%nat with (length (done ++ pcmBytes x))
      by (rewrite length_app; reflexivity).
    rewrite (app_assoc done). rewrite IH, <- app_assoc. reflexivity.
Qed.

Lemma js_RIFF : js "RIFF" = [82; 73; 70; 70]%N. Proof. reflexivity. Qed.
Lemma js_WAVE : js "WAVE" = [87; 65; 86; 69]%N. Proof. reflexivity. Qed.
Lemma js_fmt : js "fmt " = [102; 109; 116; 32]%N. Proof. reflexivity. Qed.
Lemma js_data : js "data" = [100; 97; 116; 97]%N. Proof. reflexivity. Qed.

(** Writes that stay inside the first bytes of a buffer can be carried out
    on those bytes alone. *)
Ltac header_write :=
  first [ rewrite writeString_prefix by (simpl; lia)
        | rewrite setUint32_prefix by (simpl; lia)
        | rewrite setUint16_prefix by (simpl; lia) ];
  match goal with
  | |- bindC (bindC ?op _) _ = _ =>
      let r := eval cbn [writeString setUint8 setUint16 setUint32 bindC length
                         Nat.leb Nat.add insert list_insert Z.of_N] in op in
      change op with r
  end;
  cbn [bindC].

(** The container as a whole: the header, then two bytes per sample. *)
Lemma float32ArrayToWav_bytes audioData sampleRate :
  float32ArrayToWav audioData sampleRate =
  Normal (mkBlob (wavHeader (length audioData) sampleRate ++ flat_map pcmBytes audioData)
                 (js "audio/wav")).
Proof.
  unfold float32ArrayToWav. cbv zeta.
  replace (Z.to_nat (44 + Z.of_nat (length audioData) * (16 / 8)))
    with (44 + 2 * length audioData)%nat by (change (16 / 8) with 2; lia).
  rewrite replicate_add. set (data := replicate (2 * length audioData) 0).
  rewrite js_RIFF, js_WAVE, js_fmt, js_data. cbn [replicate].
  do 13 header_write.
  match goal with |- bindC (writeSamples (?h ++ _) _ _) _ = _ =>
    change 44%nat with (length h) at 1 end.
  subst data. rewrite writeSamples_fill. cbn [bindC]. reflexivity.
Qed.

Lemma wavHeader_length n sampleRate : length (wavHeader n sampleRate) = 44%nat.
Proof. reflexivity. Qed.

(** The container never fails to be built, and its size is that of the
    header plus two bytes per sample. *)
Lemma float32ArrayToWav_length audioData sampleRate :
  exists wav, float32ArrayToWav audioData sampleRate = Normal wav /\
              length (blobBytes wav) = (44 + 2 * length audioData)%nat.
Proof.
  rewrite float32ArrayToWav_bytes. eexists. split; [reflexivity|].
  cbn [blobBytes]. rewrite length_app, wavHeader_length. f_equal.
  induction audioData as [|x rest IH]; [reflexivity|].
  cbn [flat_map length]. rewrite length_app, IH. simpl. lia.
Qed.

Lemma le32_value w :
  w mod 256 + 256 * ((w / 256) mod 256) + 65536 * ((w / 65536) mod 256)
    + 16777216 * (w / 16777216) = w.
Proof.
  replace (w / 65536) with (w / 256 / 256) by (rewrite Z.div_div by lia; reflexivity).
  replace (w / 16777216) with (w / 256 / 256 / 256)
    by (rewrite !Z.div_div by lia; reflexivity).
  pose proof (Z.div_mod w 256 ltac:(lia)).
  pose proof (Z.div_mod (w / 256) 256 ltac:(lia)).
  pose proof (Z.div_mod (w / 256 / 256) 256 ltac:(lia)).
  lia.
Qed.

Lemma le16_value w : w mod 256 + 256 * (w / 256) = w.
Proof. pose proof (Z.div_mod w 256 ltac:(lia)). lia. Qed.

Lemma int16_roundtrip v :
  -32768 <= v <= 32767 ->
  (if 32768 <=? v mod 65536 then v mod 65536 - 65536 else v mod 65536) = v.
Proof.
  intros H. destruct (32768 <=? v mod 65536) eqn:E;
    [apply Z.leb_le in E|apply Z.leb_gt in E]; Z.div_mod_to_equations; lia.
Qed.

Lemma ToInt16_range x : -32768 <= ToInt16 x <= 32767.
Proof.
  unfold ToInt16. cbv zeta.
  pose proof (Z.mod_pos_bound (truncate x) 65536 ltac:(lia)).
  destruct (32768 <=? truncate x mod 65536) eqn:E;
    [apply Z.leb_le in E|apply Z.leb_gt in E]; lia.
Qed.

(** The size fields of the header, read back: the sizes modulo [2^32]. *)
Lemma header_sizes n sampleRate rest :
  getUint32 (wavHeader n sampleRate ++ rest) 40 true
    = Some ((Z.of_nat n * 2) mod 4294967296) /\
  getUint32 (wavHeader n sampleRate ++ rest) 4 true
    = Some ((36 + Z.of_nat n * 2) mod 4294967296).
Proof.
  unfold getUint32.
  rewrite !lookup_app_l by (rewrite wavHeader_length; lia).
  split; cbn [wavHeader le32 le16 app lookup list_lookup]; f_equal; apply le32_value.
Qed.

(** The format fields: PCM, one channel, 16 bits per sample. *)
Lemma header_format n sampleRate rest :
  getUint16 (wavHeader n sampleRate ++ rest) 20 true = Some 1 /\
  getUint16 (wavHeader n sampleRate ++ rest) 22 true = Some 1 /\
  getUint16 (wavHeader n sampleRate ++ rest) 34 true = Some 16.
Proof.
  unfold getUint16.
  rewrite !lookup_app_l by (rewrite wavHeader_length; lia).
  split; [|split]; reflexivity.
Qed.


(** Where the bytes of the sample of index [i] lie in the data area. *)
Lemma pcmBytes_lookup audioData : forall i x,
  audioData !! i = Some x ->
  flat_map pcmBytes audioData !! (2 * i)%nat = Some (pcm16 x mod 65536 mod 256) /\
  flat_map pcmBytes audioData !! S (2 * i) = Some (pcm16 x mod 65536 / 256).
Proof.
  induction audioData as [|y rest IH]; intros i x Hi; [discriminate|].
  destruct i as [|i].
  - injection Hi as ->. split; reflexivity.
  - replace (2 * S i)%nat with (S (S (2 * i))) by lia.
    apply (IH i x Hi).
Qed.

(** C7, amended. As long as [36 + 2 N] fits the 32-bit size field, the
    header of the container built from [N] samples at 16000 Hz declares a
    data size of [2 N] bytes and a RIFF size of [36 + 2 N] bytes, PCM
    format, one channel and 16 bits per sample. *)
Theorem wav_header_declares_sizes audioData :
  36 + Z.of_nat (length audioData) * 2 < 4294967296 ->
  exists wav,
    float32ArrayToWav audioData 16000 = Normal wav /\
    getUint32 (blobBytes wav) 40 true = Some (Z.of_nat (length audioData) * 2) /\
    getUint32 (blobBytes wav) 4 true = Some (36 + Z.of_nat (length audioData) * 2) /\
    getUint16 (blobBytes wav) 20 true = Some 1 /\
    getUint16 (blobBytes wav) 22 true = Some 1 /\
    getUint16 (blobBytes wav) 34 true = Some 16.
Proof.
  intros Hfits. rewrite float32ArrayToWav_bytes. eexists. split; [reflexivity|].
  cbn [blobBytes].
  destruct (header_sizes (length audioData) 16000 (flat_map pcmBytes audioData))
    as [Hdata Hriff].
  destruct (header_format (length audioData) 16000 (flat_map pcmBytes audioData))
    as (Hpcm & Hchannels & Hbits).
  rewrite Hdata, Hriff, Hpcm, Hchannels, Hbits.
  rewrite !Z.mod_small by lia. repeat split.
Qed.

Lemma wav_header_declares_sizes_witness :
  exists wav,
    float32ArrayToWav [0.5%float; (-0.5)%float; 2%float] 16000 = Normal wav /\
    getUint32 (blobBytes wav) 40 true = Some 6 /\
    getUint32 (blobBytes wav) 4 true = Some 42 /\
    getUint16 (blobBytes wav) 20 true = Some 1 /\
    getUint16 (blobBytes wav) 22 true = Some 1 /\
    getUint16 (blobBytes wav) 34 true = Some 16.
Proof.
  apply (wav_header_declares_sizes [0.5%float; (-0.5)%float; 2%float]).
  reflexivity.
Defined.

(** [2^31] samples of silence. *)
Definition hugeAudio : list float := replicate (Z.to_nat (2 ^ 31)) 0%float.

(** C7, as stated, fails for sample counts from [2^31 - 18] on: the size
    fields are 32 bits wide and [setUint32] stores its value modulo
    [2^32]. For [2^31] samples the data size is [2^32] bytes, and the header
    declares a data size of 0 and a RIFF size of 36. *)
Lemma huge_wav_header_wraps :
  Z.of_nat (length hugeAudio) = 2 ^ 31 /\
  exists wav,
    float32ArrayToWav hugeAudio 16000 = Normal wav /\
    getUint32 (blobBytes wav) 40 true = Some 0 /\
    getUint32 (blobBytes wav) 4 true = Some 36 /\
    getUint32 (blobBytes wav) 40 true <> Some (Z.of_nat (length hugeAudio) * 2) /\
    getUint32 (blobBytes wav) 4 true <> Some (36 + Z.of_nat (length hugeAudio) * 2).
Proof.
  assert (Hlen : Z.of_nat (length hugeAudio) = 2 ^ 31).
  { unfold hugeAudio. rewrite length_replicate.
    apply Z2Nat.id. vm_compute. discriminate. }
  split; [exact Hlen|].
  rewrite float32ArrayToWav_bytes. eexists. split; [reflexivity|].
  cbn [blobBytes].
  destruct (header_sizes (length hugeAudio) 16000 (flat_map pcmBytes hugeAudio))
    as [Hdata Hriff].
  rewrite Hdata, Hriff, Hlen.
  split; [reflexivity|]. split; [reflexivity|]. split; discriminate.
Qed.

(** C8. The container is always built, and for the sample [x] of index
    [i] the two bytes at offset [44 + 2 i] are the low and then the high
    byte of [pcm16 x], the sample clamped to [-1, 1], scaled and converted
    to a signed 16-bit integer: read back little-endian they give
    [pcm16 x], which lies in the signed 16-bit range. *)
Theorem samples_stored_as_pcm16 audioData sampleRate i x :
  audioData !! i = Some x ->
  exists wav,
    float32ArrayToWav audioData sampleRate = Normal wav /\
    blobBytes wav !! (44 + 2 * i)%nat = Some (pcm16 x mod 65536 mod 256) /\
    blobBytes wav !! (44 + 2 * i + 1)%nat = Some (pcm16 x mod 65536 / 256) /\
    getInt16 (blobBytes wav) (44 + 2 * i) true = Some (pcm16 x) /\
    pcm16 x = ToInt16 (intSample x) /\
    -32768 <= pcm16 x <= 32767.
Proof.
  intros Hi. rewrite float32ArrayToWav_bytes. eexists. split; [reflexivity|].
  cbn [blobBytes].
  destruct (pcmBytes_lookup audioData i x Hi) as [Hlow Hhigh].
  assert (H0 : (wavHeader (length audioData) sampleRate ++ flat_map pcmBytes audioData)
                 !! (44 + 2 * i)%nat = Some (pcm16 x mod 65536 mod 256)).
  { rewrite lookup_app_r by (rewrite wavHeader_length; lia).
    rewrite wavHeader_length. replace (44 + 2 * i - 44)%nat with (2 * i)%nat by lia.
    exact Hlow. }
  assert (H1 : (wavHeader (length audioData) sampleRate ++ flat_map pcmBytes audioData)
                 !! S (44 + 2 * i) = Some (pcm16 x mod 65536 / 256)).
  { rewrite lookup_app_r by (rewrite wavHeader_length; lia).
    rewrite wavHeader_length. replace (S (44 + 2 * i) - 44)%nat with (S (2 * i)) by lia.
    exact Hhigh. }
  assert (Hrange : -32768 <= pcm16 x <= 32767) by apply ToInt16_range.
  split; [exact H0|]. split.
  { replace (44 + 2 * i + 1)%nat with (S (44 + 2 * i)) by lia. exact H1. }
  split.
  { unfold getInt16, getUint16. rewrite H0, H1, le16_value.
    rewrite int16_roundtrip by exact Hrange. reflexivity. }
  split; [|exact Hrange].
  unfold pcm16. rewrite intSample_refines. reflexivity.
Qed.

Lemma samples_stored_as_pcm16_witness :
  exists wav,
    float32ArrayToWav [0.5%float; (-0.5)%float; 2%float] 16000 = Normal wav /\
    blobBytes wav !! 46%nat = Some 0 /\
    blobBytes wav !! 47%nat = Some 192 /\
    getInt16 (blobBytes wav) 46 true = Some (-16384) /\
    -16384 = ToInt16 (intSample (-0.5)%float) /\
    -32768 <= -16384 <= 32767.
Proof.
  apply (samples_stored_as_pcm16 [0.5%float; (-0.5)%float; 2%float] 16000 1%nat
           (-0.5)%float).
  reflexivity.
Defined.

(** Samples at and beyond the ends of the range, and the values that are
    not numbers in it. *)
Example pcm16_values :
  map pcm16 [0.5%float; (-0.5)%float; 1%float; (-1)%float; 2%float; (-3)%float;
             0%float; (-0)%float; infinity; neg_infinity; nan]
  = [16383; -16384; 32767; -32768; 32767; -32768; 0; 0; 32767; -32768; 0].
Proof. vm_compute. reflexivity. Qed.

(** * Further properties *)

(** ** The splitting loop: sizes and number of chunks *)

(** The limit of the service, as the comment above
    [generateSpeechFromText] gives it. *)
Definition SERVICE_LIMIT : Z := 4096.

(** In an iteration that splits, the chunk has exactly [splitIndex] code
    units. *)
Lemma split_chunk_strlen r :
  MAX_CHARS < strlen r ->
  strlen (substring r 0 (findSplitIndex r)) = findSplitIndex r.
Proof.
  intros Hlong. pose proof (findSplitIndex_range r) as H.
  unfold MIN_SPLIT, MAX_CHARS in *.
  rewrite substring_prefix. unfold strlen in *. rewrite length_take.
  rewrite clamp_index_inside by (unfold strlen; lia). lia.
Qed.

Lemma concat_length_le (chunks : list str) :
  Forall (fun chunk => MIN_SPLIT < strlen chunk) chunks ->
  (MIN_SPLIT + 1) * Z.of_nat (length chunks) <= strlen (concat chunks).
Proof.
  induction 1 as [|c chunks Hc _ IH]; simpl; [unfold strlen; simpl; lia|].
  unfold strlen in *. rewrite length_app. lia.
Qed.

(** What the loop adds to [chunks]: chunks cut at a split point, each of
    more than [MIN_SPLIT] and at most [MAX_CHARS + 1] code units, then at
    most one last chunk, which is not empty and fits the ceiling; together
    they are no longer than the text that remained. *)
Lemma splitLoop_structure r chunks :
  exists cut rest,
    splitLoop r chunks = chunks ++ cut ++ rest /\
    Forall (fun chunk => MIN_SPLIT < strlen chunk <= MAX_CHARS + 1) cut /\
    (rest = [] \/ exists final, rest = [final] /\ 0 < strlen final <= MAX_CHARS) /\
    strlen (concat (cut ++ rest)) <= strlen r.
Proof.
  apply (splitLoop_induction (fun r chunks result =>
    exists cut rest,
      result = chunks ++ cut ++ rest /\
      Forall (fun chunk => MIN_SPLIT < strlen chunk <= MAX_CHARS + 1) cut /\
      (rest = [] \/ exists final, rest = [final] /\ 0 < strlen final <= MAX_CHARS) /\
      strlen (concat (cut ++ rest)) <= strlen r)); clear r chunks.
  - intros r chunks Hr. exists [], []. rewrite !app_nil_r.
    repeat split; [constructor|left; reflexivity|apply strlen_nonneg].
  - intros r chunks Hr. exists [], [r]. simpl.
    repeat split; [constructor|right; exists r; split; [reflexivity|lia]|].
    rewrite app_nil_r. lia.
  - intros r chunks result Hlong (cut & rest & -> & Hcut & Hrest & Hlen).
    exists (substring r 0 (findSplitIndex r) :: cut), rest.
    pose proof (findSplitIndex_range r) as Hrange.
    pose proof (split_chunk_strlen r Hlong) as Hchunk.
    split; [rewrite <- !app_assoc; reflexivity|].
    split; [constructor; [lia|exact Hcut]|]. split; [exact Hrest|].
    simpl. unfold strlen in *. rewrite length_app.
    pose proof (trim_length (substring_from r (findSplitIndex r))) as Htrim.
    assert (Hcutlen : (length (substring r 0 (findSplitIndex r))
                       + length (substring_from r (findSplitIndex r)) = length r)%nat).
    { rewrite <- length_app, substring_cut. reflexivity. }
    lia.
Qed.

(** X1. Every chunk has at least one and at most [MAX_CHARS + 1] code
    units, so no chunk reaches the limit of the service. *)
Theorem chunks_within_service_limit text :
  Forall (fun chunk => 0 < strlen chunk <= MAX_CHARS + 1 /\ strlen chunk < SERVICE_LIMIT)
         (splitLoop text []).
Proof.
  destruct (splitLoop_structure text []) as (cut & rest & -> & Hcut & Hrest & _).
  simpl. apply Forall_app. split.
  - eapply Forall_impl; [exact Hcut|]. simpl. intros chunk H.
    unfold MIN_SPLIT, MAX_CHARS, SERVICE_LIMIT in *. lia.
  - destruct Hrest as [->|(final & -> & Hfinal)]; [constructor|].
    repeat constructor; unfold MAX_CHARS, SERVICE_LIMIT in *; lia.
Qed.

(** X2. Every chunk but the last has more than [MIN_SPLIT] code units, so
    a text of [n] code units is cut into at most [n / 401 + 1] chunks. *)
Theorem chunks_make_progress text :
  (forall i chunk,
      splitLoop text [] !! i = Some chunk ->
      (S i < length (splitLoop text []))%nat ->
      MIN_SPLIT < strlen chunk) /\
  Z.of_nat (length (splitLoop text [])) <= strlen text / (MIN_SPLIT + 1) + 1.
Proof.
  destruct (splitLoop_structure text []) as (cut & rest & -> & Hcut & Hrest & Hlen).
  simpl. split.
  - intros i chunk Hi Hnotlast. rewrite length_app in Hnotlast.
    assert (Hrest1 : (length rest <= 1)%nat)
      by (destruct Hrest as [->|(final & -> & _)]; simpl; lia).
    rewrite lookup_app_l in Hi by lia.
    rewrite Forall_forall in Hcut.
    apply (Hcut chunk). eapply list_elem_of_lookup_2. exact Hi.
  - assert (Hcut' : Forall (fun chunk => MIN_SPLIT < strlen chunk) cut)
      by (eapply Forall_impl; [exact Hcut|]; simpl; intros; lia).
    pose proof (concat_length_le cut Hcut') as Hsum.
    assert (Hrest1 : (length rest <= 1)%nat)
      by (destruct Hrest as [->|(final & -> & _)]; simpl; lia).
    rewrite concat_app in Hlen. unfold strlen in Hlen, Hsum |- *.
    rewrite length_app in Hlen |- *.
    unfold MIN_SPLIT in *. apply Z.le_trans with (Z.of_nat (length cut) + 1); [lia|].
    apply Z.add_le_mono_r. apply Z.div_le_lower_bound; lia.
Qed.

(** ** Speech synthesis: the calls made and the audio returned *)

Lemma nonWhiteSpace_nil_trimStart s : nonWhiteSpace s = [] -> trimStart s = [].
Proof.
  induction s as [|c s IH]; [reflexivity|]. unfold nonWhiteSpace. simpl.
  destruct (isWhiteSpace c); simpl; [exact IH|discriminate].
Qed.

(** A string of white space trims to the empty string. *)
Lemma nonWhiteSpace_nil_trim s : nonWhiteSpace s = [] -> trim s = [].
Proof.
  intros H. unfold trim. rewrite (nonWhiteSpace_nil_trimStart s H). reflexivity.
Qed.

(** The chunks of a text of white space are white space. *)
Lemma splitLoop_blank r chunks :
  nonWhiteSpace r = [] ->
  Forall (fun chunk => nonWhiteSpace chunk = []) chunks ->
  Forall (fun chunk => nonWhiteSpace chunk = []) (splitLoop r chunks).
Proof.
  apply (splitLoop_induction (fun r chunks result =>
    nonWhiteSpace r = [] ->
    Forall (fun chunk => nonWhiteSpace chunk = []) chunks ->
    Forall (fun chunk => nonWhiteSpace chunk = []) result)); clear r chunks.
  - intros r chunks _ _ H. exact H.
  - intros r chunks _ Hr H. apply Forall_app. split; [exact H|]. repeat constructor.
    exact Hr.
  - intros r chunks result _ IH Hr H.
    rewrite <- (substring_cut r (findSplitIndex r)), nonWhiteSpace_app in Hr.
    apply app_eq_nil in Hr as [Hchunk Hrest].
    apply IH; [rewrite nonWhiteSpace_trim; exact Hrest|].
    apply Forall_app. split; [exact H|]. repeat constructor. exact Hchunk.
Qed.

Section SpeechMore.

Context {env : Environment}.

(** Blank chunks cost no call. *)
Lemma fetchChunks_blank voice chunks : forall audioParts w,
  Forall (fun chunk => nonWhiteSpace chunk = []) chunks ->
  fetchChunks voice chunks audioParts w = (w, Normal audioParts).
Proof.
  induction chunks as [|c chunks IH]; intros audioParts w Hblank; [reflexivity|].
  inversion Hblank as [|? ? Hc Hrest]; subst. simpl.
  rewrite (nonWhiteSpace_nil_trim c Hc). simpl. apply IH. exact Hrest.
Qed.

(** When every call succeeds, the loop has made one call per chunk sent,
    in order, and collected their parts in order. *)
Lemma fetchChunks_success voice chunks : forall w audioParts parts,
  let sent := List.filter (fun chunk => 0 <? strlen (trim chunk)) chunks in
  length parts = length sent ->
  (forall j c, sent !! j = Some c ->
     exists part,
       parts !! j = Some part /\
       snd (fetchAudioChunk voice c (record w (map (speechCall voice) (take j sent))))
       = Normal part) ->
  fetchChunks voice chunks audioParts w =
  (record w (map (speechCall voice) sent), Normal (audioParts ++ parts)).
Proof.
  induction chunks as [|c chunks IH]; intros w audioParts parts sent Hlen Hall.
  - subst sent. simpl in *. destruct parts; [|discriminate].
    rewrite record_nil, app_nil_r. reflexivity.
  - subst sent. simpl in *. destruct (0 <? strlen (trim c)) eqn:Hblank.
    + destruct (Hall 0%nat c eq_refl) as (part & Hpart & Hrun).
      destruct parts as [|p parts]; [discriminate|]. simpl in Hpart.
      injection Hpart as ->. simpl in Hrun. rewrite record_nil in Hrun.
      unfold bind. rewrite (surjective_pairing (fetchAudioChunk voice c w)).
      rewrite fetchAudioChunk_world, Hrun.
      rewrite (IH _ _ parts).
      * rewrite record_record, <- app_assoc. reflexivity.
      * simpl in Hlen. lia.
      * intros j c' Hc'. destruct (Hall (S j) c' Hc') as (part' & Hpart' & Hrun').
        exists part'. split; [exact Hpart'|]. simpl in Hrun'.
        rewrite record_record. exact Hrun'.
    + apply (IH w audioParts parts Hlen Hall).
Qed.

(** X3. When the call for every chunk sent succeeds, exactly one call per
    such chunk has been issued, in the order of the chunks, and the blob
    returned holds the parts received, end to end in that order, declared
    ['audio/mpeg']. *)
Theorem speech_success text voice w parts :
  text <> [] ->
  length parts = length (dispatched text) ->
  (forall j c, dispatched text !! j = Some c ->
     exists part,
       parts !! j = Some part /\
       snd (fetchAudioChunk voice c
              (record w (map (speechCall voice) (take j (dispatched text)))))
       = Normal part) ->
  generateSpeechFromText text voice w =
  (record w (map (speechCall voice) (dispatched text)),
   Normal (mkBlob (concat parts) (js "audio/mpeg"))).
Proof.
  intros Htext Hlen Hall. unfold generateSpeechFromText.
  destruct text as [|c text]; [congruence|].
  unfold try_catch, bind.
  rewrite (fetchChunks_success voice (splitLoop (c :: text) []) w [] parts Hlen Hall).
  unfold ret. simpl. rewrite combine_concat. reflexivity.
Qed.

(** X4. A text that is not empty but holds white space only costs no
    call: an empty blob declared ['audio/mpeg'] is returned and the world
    is as it was. *)
Theorem blank_text_no_calls text voice w :
  text <> [] ->
  nonWhiteSpace text = [] ->
  generateSpeechFromText text voice w = (w, Normal (mkBlob [] (js "audio/mpeg"))).
Proof.
  intros Htext Hblank. unfold generateSpeechFromText.
  destruct text as [|c text]; [congruence|].
  unfold try_catch, bind.
  rewrite (fetchChunks_blank voice (splitLoop (c :: text) []) [] w
             (splitLoop_blank (c :: text) [] Hblank (List.Forall_nil _))).
  reflexivity.
Qed.

(** X5. A text within the ceiling that is not blank costs exactly one
    call, and the call carries the text as it is, white space at its ends
    included; the outcome of that call is the outcome of the operation. *)
Theorem short_text_single_call text voice w :
  0 < strlen text <= MAX_CHARS ->
  0 < strlen (trim text) ->
  fst (generateSpeechFromText text voice w) = record w [speechCall voice text] /\
  (forall part,
      snd (fetchAudioChunk voice text w) = Normal part ->
      snd (generateSpeechFromText text voice w) = Normal (mkBlob part (js "audio/mpeg"))) /\
  (forall e,
      snd (fetchAudioChunk voice text w) = Throw e ->
      snd (generateSpeechFromText text voice w) = Throw e).
Proof.
  intros Hshort Hsome. unfold generateSpeechFromText.
  destruct text as [|c text]; [unfold strlen in Hshort; simpl in Hshort; lia|].
  rewrite (short_text_one_chunk (c :: text) Hshort).
  unfold try_catch, bind. cbn [fetchChunks].
  apply Z.ltb_lt in Hsome. rewrite Hsome. unfold bind.
  rewrite (surjective_pairing (fetchAudioChunk voice (c :: text) w)).
  rewrite fetchAudioChunk_world.
  destruct (snd (fetchAudioChunk voice (c :: text) w)) as [part|e].
  - cbn [fetchChunks ret app fst snd]. rewrite combine_concat. simpl concat.
    rewrite app_nil_r. repeat split; [congruence|discriminate].
  - cbn [fst snd throw]. repeat split; [discriminate|congruence].
Qed.

End SpeechMore.

Lemma speech_success_witness :
  @generateSpeechFromText audioService overlong_text (js "nova") emptyWorld =
  (record emptyWorld
     (map (@speechCall audioService (js "nova")) (dispatched overlong_text)),
   Normal (mkBlob (concat [[73; 68; 51]; [73; 68; 51]]) (js "audio/mpeg"))).
Proof.
  apply (@speech_success audioService overlong_text (js "nova") emptyWorld
           [[73; 68; 51]; [73; 68; 51]]).
  - discriminate.
  - vm_compute. reflexivity.
  - intros j c Hc. exists [73; 68; 51].
    assert (Hj : (j < 2)%nat).
    { apply lookup_lt_Some in Hc.
      replace (length (dispatched overlong_text)) with 2%nat in Hc
        by (vm_compute; reflexivity).
      exact Hc. }
    destruct j as [|[|j]]; [| |lia]; (split; [reflexivity|]).
    + assert (Hfirst : Some c = Some (replicate 4000 97%N ++ js " "))
        by (rewrite <- Hc; vm_compute; reflexivity).
      injection Hfirst as ->. vm_compute. reflexivity.
    + assert (Hsecond : Some c = Some (js "b"))
        by (rewrite <- Hc; vm_compute; reflexivity).
      injection Hsecond as ->. vm_compute. reflexivity.
Defined.

Lemma blank_text_no_calls_witness :
  @generateSpeechFromText silentNetwork (replicate 5000 32%N) (js "nova") emptyWorld =
  (emptyWorld, Normal (mkBlob [] (js "audio/mpeg"))).
Proof.
  apply (@blank_text_no_calls silentNetwork (replicate 5000 32%N) (js "nova") emptyWorld).
  - discriminate.
  - vm_compute. reflexivity.
Defined.

Lemma short_text_single_call_witness :
  fst (@generateSpeechFromText audioService (js " Hello. ") (js "") emptyWorld)
    = record emptyWorld [@speechCall audioService (js "") (js " Hello. ")] /\
  (forall part,
      snd (@fetchAudioChunk audioService (js "") (js " Hello. ") emptyWorld) = Normal part ->
      snd (@generateSpeechFromText audioService (js " Hello. ") (js "") emptyWorld)
        = Normal (mkBlob part (js "audio/mpeg"))) /\
  (forall e,
      snd (@fetchAudioChunk audioService (js "") (js " Hello. ") emptyWorld) = Throw e ->
      snd (@generateSpeechFromText audioService (js " Hello. ") (js "") emptyWorld)
        = Throw e).
Proof.
  apply (@short_text_single_call audioService (js " Hello. ") (js "") emptyWorld).
  - vm_compute. split; [reflexivity|discriminate].
  - vm_compute. reflexivity.
Defined.

(** ** The request helper: one attempt, successes only *)

Section RequestMore.

Context {env : Environment}.

(** X6. Whatever its outcome, a request issues exactly one [fetch] call
    and makes no second attempt: a POST to the base address followed by
    the endpoint, with the bearer credential, and with the JSON content
    type exactly when the body is not form data. The chat sessions are
    left alone. *)
Theorem request_single_attempt endpoint body isFormData timeoutMs w :
  exists call,
    fetched (fst (openaiRequest endpoint body isFormData timeoutMs w))
      = fetched w ++ [call] /\
    heap (fst (openaiRequest endpoint body isFormData timeoutMs w)) = heap w /\
    url call = OPENAI_BASE_URL ++ endpoint /\
    method call = js "POST" /\
    (js "Authorization", js "Bearer " ++ OPENAI_API_KEY) ∈ headers call /\
    ((js "Content-Type", js "application/json") ∈ headers call <-> isFormData = false) /\
    payload call = (if isFormData then FormPayload body else JsonPayload body).
Proof.
  exists (issued endpoint body isFormData). rewrite openaiRequest_run. simpl.
  repeat split; try reflexivity; try (left; reflexivity).
  - destruct isFormData; [|reflexivity]. simpl.
    rewrite elem_of_cons, elem_of_nil. intros [H|[]]. discriminate.
  - intros ->. simpl. rewrite !elem_of_cons. right. left. reflexivity.
Qed.

(** X7. A request returns a response only if the response arrived within
    the wait and has a success status: a response with another status
    never reaches the caller. *)
Theorem request_returns_success_only endpoint body isFormData timeoutMs w response :
  snd (openaiRequest endpoint body isFormData timeoutMs w) = Normal response ->
  ok response = true /\
  exists latency,
    network (fetched w) (issued endpoint body isFormData) = Responds latency response /\
    latency <= timeoutMs.
Proof.
  rewrite openaiRequest_run. simpl. unfold requestOutcome.
  destruct (network (fetched w) (issued endpoint body isFormData))
    as [latency r|latency message|] eqn:Hev; simpl.
  - destruct (timeoutMs <? latency) eqn:Hto; [discriminate|]. apply Z.ltb_ge in Hto.
    destruct (ok r) eqn:Hok.
    + intros [= <-]. split; [exact Hok|]. exists latency. split; [reflexivity|exact Hto].
    + destruct (json r) as [[|error_message content]|]; discriminate.
  - destruct (timeoutMs <? latency); discriminate.
  - discriminate.
Qed.

End RequestMore.

Lemma request_returns_success_only_witness :
  ok (mkResponse true 200 None (Some [73; 68; 51])) = true /\
  exists latency,
    @network audioService (fetched emptyWorld)
      (@issued audioService (js "/audio/speech") helloSpeech false)
    = Responds latency (mkResponse true 200 None (Some [73; 68; 51])) /\
    latency <= DEFAULT_TIMEOUT_MS.
Proof.
  apply (@request_returns_success_only audioService (js "/audio/speech") helloSpeech
           false DEFAULT_TIMEOUT_MS emptyWorld).
  reflexivity.
Defined.

(** ** The chat session over several calls *)

Section ChatMore.

Context {env : Environment}.

(** What one call does to a session that exists. *)
Lemma sendMessageToChat_run chat message w session :
  heap w !! chat = Some session ->
  let asked := extended session [mkMessage user message] in
  let call := issued (js "/chat/completions") (chatBody asked) false in
  sendMessageToChat chat message w =
  match replyOf (requestOutcome (network (fetched w) call) DEFAULT_TIMEOUT_MS) with
  | Some reply =>
      (mkWorld (fetched w ++ [call])
         (<[chat := extended session [mkMessage user message; mkMessage assistant reply]]>
            (heap w)),
       Normal reply)
  | None => (mkWorld (fetched w ++ [call]) (<[chat := asked]> (heap w)), Normal CHAT_ERROR)
  end.
Proof.
  intros Hchat asked call.
  unfold sendMessageToChat, try_catch, bind at 1. unfold pushMessage at 1.
  rewrite Hchat. unfold bind at 1. unfold readSession. simpl heap.
  rewrite lookup_insert_eq. unfold bind at 1. rewrite openaiRequest_run.
  simpl fetched.
  change (issued (js "/chat/completions") _ false) with call.
  unfold replyOf.
  destruct (requestOutcome (network (fetched w) call) DEFAULT_TIMEOUT_MS)
    as [response|e]; [|reflexivity].
  unfold bind at 1, readJson.
  destruct (json response) as [[|error_message content]|]; try reflexivity.
  unfold ret at 1, bind at 1, choiceContent, ret at 1, bind, pushMessage.
  simpl. rewrite lookup_insert_eq, insert_insert_eq. unfold ret, extended, asked.
  simpl. rewrite <- app_assoc. reflexivity.
Qed.

(** X8. A message that got no reply stays in the session, so the next
    call sends it again: after a call without reply for [first], the call
    made for [second] lists the earlier history, then [first], then
    [second], two user turns in a row. *)
Theorem unanswered_message_sent_again chat first second w session :
  heap w !! chat = Some session ->
  let call1 :=
    issued (js "/chat/completions")
      (chatBody (extended session [mkMessage user first])) false in
  let call2 :=
    issued (js "/chat/completions")
      (chatBody (extended session [mkMessage user first; mkMessage user second])) false in
  replyOf (requestOutcome (network (fetched w) call1) DEFAULT_TIMEOUT_MS) = None ->
  let w1 := fst (sendMessageToChat chat first w) in
  snd (sendMessageToChat chat first w) = Normal CHAT_ERROR /\
  fetched (fst (sendMessageToChat chat second w1)) = fetched w ++ [call1; call2].
Proof.
  intros Hchat call1 call2 Hnone w1.
  assert (H1 : sendMessageToChat chat first w =
               (mkWorld (fetched w ++ [call1])
                  (<[chat := extended session [mkMessage user first]]> (heap w)),
                Normal CHAT_ERROR)).
  { rewrite (sendMessageToChat_run chat first w session Hchat). cbv zeta.
    fold call1. rewrite Hnone. reflexivity. }
  subst w1. rewrite H1. simpl fst. simpl snd. split; [reflexivity|].
  rewrite (sendMessageToChat_run chat second _ (extended session [mkMessage user first]))
    by (simpl; apply lookup_insert_eq).
  cbv zeta.
  replace (extended (extended session [mkMessage user first]) [mkMessage user second])
    with (extended session [mkMessage user first; mkMessage user second])
    by (unfold extended; simpl; rewrite <- app_assoc; reflexivity).
  fold call2. clear Hnone H1.
  match goal with
  | |- context [replyOf ?outcome] => destruct (replyOf outcome)
  end; simpl; rewrite <- app_assoc; reflexivity.
Qed.

End ChatMore.

Lemma unanswered_message_sent_again_witness :
  snd (@sendMessageToChat silentNetwork 0%nat (js "2+2?") oneChat) = Normal CHAT_ERROR /\
  fetched (fst (@sendMessageToChat silentNetwork 0%nat (js "Hello?")
                  (fst (@sendMessageToChat silentNetwork 0%nat (js "2+2?") oneChat))))
  = fetched oneChat ++
    [@issued silentNetwork (js "/chat/completions")
       (chatBody (extended mathsSession [mkMessage user (js "2+2?")])) false;
     @issued silentNetwork (js "/chat/completions")
       (chatBody (extended mathsSession
                    [mkMessage user (js "2+2?"); mkMessage user (js "Hello?")])) false].
Proof.
  apply (@unanswered_message_sent_again silentNetwork 0%nat (js "2+2?") (js "Hello?")
           oneChat mathsSession).
  - reflexivity.
  - reflexivity.
Defined.

(** ** The WAV container: always built, laid out as the format asks *)


(** X9. The container is built for every sequence of samples and every
    sample rate: no write falls outside the buffer. It has 44 bytes of
    header and two bytes per sample, and is declared ['audio/wav']. *)
Theorem wav_always_built audioData sampleRate :
  exists wav,
    float32ArrayToWav audioData sampleRate = Normal wav /\
    length (blobBytes wav) = (44 + 2 * length audioData)%nat /\
    blobType wav = js "audio/wav".
Proof.
  destruct (float32ArrayToWav_length audioData sampleRate) as (wav & Hwav & Hlen).
  exists wav. split; [exact Hwav|]. split; [exact Hlen|].
  rewrite float32ArrayToWav_bytes in Hwav. injection Hwav as <-. reflexivity.
Qed.

(** X10. The header starts with the tags [RIFF] and [WAVE], holds a
    [fmt ] chunk of 16 bytes at offset 12 and the [data] tag at offset 36;
    for a sample rate below [2^31] it declares that rate, a byte rate of
    twice the rate and a block alignment of 2 bytes, which agree with one
    channel of 16-bit samples. *)
Theorem wav_header_layout audioData sampleRate :
  0 <= sampleRate < 2147483648 ->
  exists wav,
    float32ArrayToWav audioData sampleRate = Normal wav /\
    take 4 (blobBytes wav) = map Z.of_N (js "RIFF") /\
    take 8 (drop 8 (blobBytes wav)) = map Z.of_N (js "WAVEfmt ") /\
    take 4 (drop 36 (blobBytes wav)) = map Z.of_N (js "data") /\
    getUint32 (blobBytes wav) 16 true = Some 16 /\
    getUint32 (blobBytes wav) 24 true = Some sampleRate /\
    getUint32 (blobBytes wav) 28 true = Some (2 * sampleRate) /\
    getUint16 (blobBytes wav) 32 true = Some 2.
Proof.
  intros Hrate. rewrite float32ArrayToWav_bytes. eexists. split; [reflexivity|].
  cbn [blobBytes].
  set (data := flat_map pcmBytes audioData).
  split; [reflexivity|]. split; [reflexivity|]. split; [reflexivity|].
  unfold getUint32, getUint16.
  rewrite !lookup_app_l by (rewrite wavHeader_length; lia).
  split; [reflexivity|].
  split.
  { cbn [wavHeader le32 le16 app lookup list_lookup]. f_equal.
    rewrite le32_value. apply Z.mod_small. lia. }
  split.
  { cbn [wavHeader le32 le16 app lookup list_lookup]. f_equal.
    rewrite le32_value, Z.mul_comm. apply Z.mod_small. lia. }
  reflexivity.
Qed.

Lemma wav_header_layout_witness :
  exists wav,
    float32ArrayToWav [0.5%float; (-0.5)%float; 2%float] 16000 = Normal wav /\
    take 4 (blobBytes wav) = map Z.of_N (js "RIFF") /\
    take 8 (drop 8 (blobBytes wav)) = map Z.of_N (js "WAVEfmt ") /\
    take 4 (drop 36 (blobBytes wav)) = map Z.of_N (js "data") /\
    getUint32 (blobBytes wav) 16 true = Some 16 /\
    getUint32 (blobBytes wav) 24 true = Some 16000 /\
    getUint32 (blobBytes wav) 28 true = Some 32000 /\
    getUint16 (blobBytes wav) 32 true = Some 2.
Proof.
  apply (wav_header_layout [0.5%float; (-0.5)%float; 2%float] 16000).
  split; [discriminate|reflexivity].
Defined.

(** X11. Samples outside the range do not wrap around: a sample above 1
    is stored as the largest 16-bit value and a sample below -1 as the
    smallest one, however far outside it lies; a sample that is not a
    number is stored as 0; a sample within the range is scaled as it
    is. *)
Theorem samples_saturate x :
  (is_nan x = false -> (1 <? x)%float = true -> ToInt16 (intSample x) = 32767) /\
  (is_nan x = false -> (1 <? x)%float = false -> (x <? -1)%float = true ->
     ToInt16 (intSample x) = -32768) /\
  (is_nan x = true -> ToInt16 (intSample x) = 0) /\
  (is_nan x = false -> (1 <? x)%float = false -> (x <? -1)%float = false ->
     intSample x = if (x <? 0)%float then (x * 32768)%float else (x * 32767)%float).
Proof.
  rewrite intSample_refines. unfold clampSample.
  split; [|split; [|split]].
  - intros -> ->. vm_compute. reflexivity.
  - intros -> -> ->. vm_compute. reflexivity.
  - intros ->. vm_compute. reflexivity.
  - intros -> -> ->. reflexivity.
Qed.

(** ** Summaries and translations *)

Definition SUMMARY_SYSTEM : str :=
  js "You are an expert summarizer. Your task is to extract the most important information from the transcript and present it in a clean, structured bullet-point format. Use markdown for the list.".

(** The user message of a summary request; the transcript comes last. *)
Definition summaryPrompt (transcript : str) : str :=
  js "Please provide a structured summary of the following transcript:" ++ LF ++ LF ++
  js "1.  **Key Takeaways** (Bullet points)" ++ LF ++
  js "2.  **Action Items** (if any)" ++ LF ++ LF ++
  js "---" ++ LF ++ LF ++ transcript.

Definition SUMMARY_FALLBACK : str := js "Could not generate summary.".

Definition SUMMARY_ERROR : str :=
  js "An error occurred while summarizing the transcript.".

Definition translationSystem (targetLanguage : str) : str :=
  js "You are a professional translator. Translate the following text into " ++
  targetLanguage ++ js ". Maintain the original tone and formatting.".

Definition TRANSLATION_FALLBACK : str := js "Could not generate translation.".

Definition TRANSLATION_ERROR : str :=
  js "An error occurred while translating the text.".

(** The double written [0.3] in the source. *)
Definition temperature_0_3 : float := 0x1.3333333333333p-2%float.

(** The system prompt of a chat session, the transcript between two
    rules. *)
Definition chatSystemPrompt (transcript : str) : str :=
  js "You are a helpful assistant. You will answer questions based on the following meeting transcript. If the answer is not in the transcript, say that you cannot find the information in the provided context." ++
  LF ++ LF ++ js "TRANSCRIPT:" ++ LF ++ js "---" ++ LF ++ transcript ++ LF ++ js "---".

Section TextServices.

Context {env : Environment}.

Definition summarizeTranscript (transcript : str) : M str :=
  match transcript with
  | [] => ret []
  | _ :: _ =>
      try_catch
        (let* response :=
           openaiRequest (js "/chat/completions")
             (ChatCompletionBody (js "gpt-4o-mini")
                [mkMessage system SUMMARY_SYSTEM;
                 mkMessage user (summaryPrompt transcript)]
                1000 temperature_0_7)
             false DEFAULT_TIMEOUT_MS in
         let* data := readJson response in
         let* content := choiceContent data in
         ret (orDefault content SUMMARY_FALLBACK))
        (fun error => ret SUMMARY_ERROR)
  end.

Definition translateText (text targetLanguage : str) : M str :=
  match text with
  | [] => ret []
  | _ :: _ =>
      try_catch
        (let* response :=
           openaiRequest (js "/chat/completions")
             (ChatCompletionBody (js "gpt-4o-mini")
                [mkMessage system (translationSystem targetLanguage);
                 mkMessage user text]
                2000 temperature_0_3)
             false DEFAULT_TIMEOUT_MS in
         let* data := readJson response in
         let* content := choiceContent data in
         ret (orDefault content TRANSLATION_FALLBACK))
        (fun error => ret TRANSLATION_ERROR)
  end.

(** [createChatSession]: a new session object, at a location no session
    occupies. *)
Definition createChatSession (transcript : str) : M loc :=
  fun w =>
    let chat := fresh (dom (heap w)) in
    (mkWorld (fetched w) (<[chat := mkSession [] (chatSystemPrompt transcript)]> (heap w)),
     Normal chat).

(** The text a caller gets out of a finished chat-completion request: the
    content of the first choice, [fallback] when there is none or it is
    empty, [error] when the request failed or its body cannot be read. *)
Definition textOr (fallback error : str) (outcome : Completion Response) : str :=
  match outcome with
  | Normal response =>
      match json response with
      | Some (JsonObject _ choice_content) => orDefault choice_content fallback
      | _ => error
      end
  | Throw _ => error
  end.

Lemma orDefault_nonempty content fallback :
  fallback <> [] -> orDefault content fallback <> [].
Proof. intros H. destruct content as [[|c s]|]; simpl; [exact H|discriminate|exact H]. Qed.

Lemma textOr_nonempty fallback error outcome :
  fallback <> [] -> error <> [] -> textOr fallback error outcome <> [].
Proof.
  intros Hf He. unfold textOr. destruct outcome as [response|e]; [|exact He].
  destruct (json response) as [[|m c]|]; [exact He| |exact He].
  apply orDefault_nonempty. exact Hf.
Qed.

(** One chat-completion request whose failures are turned into a text. *)
Lemma completion_text_run body fallback error w :
  try_catch
    (let* response :=
       openaiRequest (js "/chat/completions") body false DEFAULT_TIMEOUT_MS in
     let* data := readJson response in
     let* content := choiceContent data in
     ret (orDefault content fallback))
    (fun _ => ret error) w =
  (record w [issued (js "/chat/completions") body false],
   Normal (textOr fallback error
             (requestOutcome
                (network (fetched w) (issued (js "/chat/completions") body false))
                DEFAULT_TIMEOUT_MS))).
Proof.
  unfold try_catch, bind at 1. rewrite openaiRequest_run. unfold textOr.
  destruct (requestOutcome _ _) as [response|e]; [|reflexivity].
  unfold bind at 1, readJson.
  destruct (json response) as [[|m c]|]; reflexivity.
Qed.

(** X12. [summarizeTranscript] never throws. For the empty transcript it
    returns the empty string and issues no call. For any other transcript
    it issues exactly one call, whose user message ends with the
    transcript, and returns a text that is never empty: the summary, or
    one of the two placeholder texts. *)
Theorem summarizeTranscript_outcome transcript w :
  exists summary,
    snd (summarizeTranscript transcript w) = Normal summary /\
    (transcript = [] ->
       fst (summarizeTranscript transcript w) = w /\ summary = []) /\
    (transcript <> [] ->
       let call :=
         issued (js "/chat/completions")
           (ChatCompletionBody (js "gpt-4o-mini")
              [mkMessage system SUMMARY_SYSTEM;
               mkMessage user (summaryPrompt transcript)]
              1000 temperature_0_7)
           false in
       fst (summarizeTranscript transcript w) = record w [call] /\
       summary = textOr SUMMARY_FALLBACK SUMMARY_ERROR
                   (requestOutcome (network (fetched w) call) DEFAULT_TIMEOUT_MS) /\
       summary <> []).
Proof.
  destruct transcript as [|c transcript].
  - exists []. split; [reflexivity|]. split; [split; reflexivity|congruence].
  - unfold summarizeTranscript. rewrite completion_text_run. eexists.
    split; [reflexivity|]. split; [discriminate|]. intros _. cbv zeta.
    split; [reflexivity|]. split; [reflexivity|].
    apply textOr_nonempty; discriminate.
Qed.

(** X13. [translateText] never throws. For the empty text it returns the
    empty string and issues no call, whatever the language. For any other
    text it issues exactly one call, with the language named in the system
    message and the text, unchanged, as the user message, and returns a
    text that is never empty. *)
Theorem translateText_outcome text targetLanguage w :
  exists translation,
    snd (translateText text targetLanguage w) = Normal translation /\
    (text = [] ->
       fst (translateText text targetLanguage w) = w /\ translation = []) /\
    (text <> [] ->
       let call :=
         issued (js "/chat/completions")
           (ChatCompletionBody (js "gpt-4o-mini")
              [mkMessage system (translationSystem targetLanguage);
               mkMessage user text]
              2000 temperature_0_3)
           false in
       fst (translateText text targetLanguage w) = record w [call] /\
       translation = textOr TRANSLATION_FALLBACK TRANSLATION_ERROR
                       (requestOutcome (network (fetched w) call) DEFAULT_TIMEOUT_MS) /\
       translation <> []).
Proof.
  destruct text as [|c text].
  - exists []. split; [reflexivity|]. split; [split; reflexivity|congruence].
  - unfold translateText. rewrite completion_text_run. eexists.
    split; [reflexivity|]. split; [discriminate|]. intros _. cbv zeta.
    split; [reflexivity|]. split; [reflexivity|].
    apply textOr_nonempty; discriminate.
Qed.

(** X14. A session made by [createChatSession] starts with an empty
    history, costs no call and takes the place of no existing session; the
    first message sent to it goes out in a call that lists the system
    prompt built around the transcript and then that message, nothing
    else. *)
Theorem fresh_chat_first_call transcript message w :
  exists chat,
    createChatSession transcript w
      = (mkWorld (fetched w)
           (<[chat := mkSession [] (chatSystemPrompt transcript)]> (heap w)),
         Normal chat) /\
    heap w !! chat = None /\
    fetched (fst (sendMessageToChat chat message (fst (createChatSession transcript w))))
      = fetched w ++
        [issued (js "/chat/completions")
           (ChatCompletionBody (js "gpt-4o-mini")
              [mkMessage system (chatSystemPrompt transcript);
               mkMessage user message]
              1000 temperature_0_7)
           false].
Proof.
  exists (fresh (dom (heap w))). split; [reflexivity|]. split.
  - apply not_elem_of_dom. apply is_fresh.
  - unfold createChatSession. cbn [fst].
    rewrite (sendMessageToChat_run _ message _ (mkSession [] (chatSystemPrompt transcript)))
      by (simpl; apply lookup_insert_eq).
    cbv zeta.
    match goal with
    | |- context [replyOf ?outcome] => destruct (replyOf outcome)
    end; reflexivity.
Qed.

End TextServices.

(** ** Base64: [btoa] and [atob] *)

Module Base64.

Definition InvalidCharacterError : JsError :=
  mkError (js "InvalidCharacterError") (js "The string contains invalid characters.").

Definition PAD : code_unit := 61%N.

(** The character of a six-bit value: [A-Z], [a-z], [0-9], [+], [/]. *)
Definition encodeSextet (v : Z) : code_unit :=
  Z.to_N (if v <? 26 then 65 + v
          else if v <? 52 then 97 + (v - 26)
          else if v <? 62 then 48 + (v - 52)
          else if v =? 62 then 43
          else 47).

(** The six-bit value of a character of the alphabet. *)
Definition decodeSextet (c : code_unit) : option Z :=
  let c := Z.of_N c in
  if (65 <=? c) && (c <=? 90) then Some (c - 65)
  else if (97 <=? c) && (c <=? 122) then Some (c - 97 + 26)
  else if (48 <=? c) && (c <=? 57) then Some (c - 48 + 52)
  else if c =? 43 then Some 62
  else if c =? 47 then Some 63
  else None.

(** Base64 encoding of a byte sequence, with padding. *)
Fixpoint encode (bytes : list Z) : str :=
  match bytes with
  | [] => []
  | [b0] =>
      [encodeSextet (b0 / 4); encodeSextet (b0 mod 4 * 16); PAD; PAD]
  | [b0; b1] =>
      [encodeSextet (b0 / 4); encodeSextet (b0 mod 4 * 16 + b1 / 16);
       encodeSextet (b1 mod 16 * 4); PAD]
  | b0 :: b1 :: b2 :: rest =>
      encodeSextet (b0 / 4) :: encodeSextet (b0 mod 4 * 16 + b1 / 16)
        :: encodeSextet (b1 mod 16 * 4 + b2 / 64) :: encodeSextet (b2 mod 64)
        :: encode rest
  end.

(** [btoa(s)]: throws unless every code unit is a byte. *)
Definition btoa (s : str) : Completion str :=
  if forallb (fun c => (c <=? 255)%N) s
  then Normal (encode (map Z.of_N s))
  else Throw InvalidCharacterError.

(** ASCII white space, which [atob] drops. *)
Definition isAsciiWhitespace (c : code_unit) : bool :=
  ((c =? 9) || (c =? 10) || (c =? 12) || (c =? 13) || (c =? 32))%N.

(** One or two padding characters at the end of [data], removed. *)
Definition stripPadding (data : str) : str :=
  match rev data with
  | p1 :: p2 :: r => if (p1 =? PAD)%N
                     then if (p2 =? PAD)%N then rev r else rev (p2 :: r)
                     else data
  | [p1] => if (p1 =? PAD)%N then [] else data
  | [] => data
  end.

(** The values of the characters, if all are of the alphabet. *)
Fixpoint sextets (data : str) : option (list Z) :=
  match data with
  | [] => Some []
  | c :: data' =>
      match decodeSextet c, sextets data' with
      | Some v, Some vs => Some (v :: vs)
      | _, _ => None
      end
  end.

(** Groups of four values give three bytes; a last group of three gives
    two bytes and one of two gives one byte, the bits left over being
    discarded. *)
Fixpoint decodeGroups (values : list Z) : list Z :=
  match values with
  | v0 :: v1 :: v2 :: v3 :: rest =>
      (v0 * 4 + v1 / 16) :: (v1 mod 16 * 16 + v2 / 4) :: (v2 mod 4 * 64 + v3)
        :: decodeGroups rest
  | [v0; v1; v2] => [v0 * 4 + v1 / 16; v1 mod 16 * 16 + v2 / 4]
  | [v0; v1] => [v0 * 4 + v1 / 16]
  | _ => []
  end.

(** [atob(data)], the forgiving-base64 decode: white space is dropped,
    padding is removed when the length is a multiple of four, a length
    that leaves a remainder of one and any character outside the alphabet
    are errors. *)
Definition atob (data : str) : Completion str :=
  let data := List.filter (fun c => negb (isAsciiWhitespace c)) data in
  let data := if (length data mod 4 =? 0)%nat then stripPadding data else data in
  if (length data mod 4 =? 1)%nat then Throw InvalidCharacterError
  else match sextets data with
       | Some values => Normal (map Z.to_N (decodeGroups values))
       | None => Throw InvalidCharacterError
       end.

(** *** The round trip *)

(** The encoding without its padding. *)
Fixpoint encodeBare (bytes : list Z) : str :=
  match bytes with
  | [] => []
  | [b0] => [encodeSextet (b0 / 4); encodeSextet (b0 mod 4 * 16)]
  | [b0; b1] =>
      [encodeSextet (b0 / 4); encodeSextet (b0 mod 4 * 16 + b1 / 16);
       encodeSextet (b1 mod 16 * 4)]
  | b0 :: b1 :: b2 :: rest =>
      encodeSextet (b0 / 4) :: encodeSextet (b0 mod 4 * 16 + b1 / 16)
        :: encodeSextet (b1 mod 16 * 4 + b2 / 64) :: encodeSextet (b2 mod 64)
        :: encodeBare rest
  end.

Lemma decode_encodeSextet v : 0 <= v < 64 -> decodeSextet (encodeSextet v) = Some v.
Proof.
  intros Hv. rewrite <- (Z2Nat.id v) by lia.
  assert (Hn : (Z.to_nat v < 64)%nat) by lia.
  generalize dependent (Z.to_nat v). intros n Hn.
  do 64 (destruct n as [|n]; [reflexivity|]). lia.
Qed.

Lemma encodeSextet_not_whitespace v :
  0 <= v < 64 -> isAsciiWhitespace (encodeSextet v) = false.
Proof.
  intros Hv. pose proof (decode_encodeSextet v Hv) as H.
  destruct (isAsciiWhitespace (encodeSextet v)) eqn:E; [|reflexivity].
  unfold isAsciiWhitespace in E. rewrite !orb_true_iff, !N.eqb_eq in E.
  destruct E as [[[[E|E]|E]|E]|E]; rewrite E in H; discriminate.
Qed.

Lemma encodeSextet_not_padding v :
  0 <= v < 64 -> (encodeSextet v =? PAD)%N = false.
Proof.
  intros Hv. pose proof (decode_encodeSextet v Hv) as H.
  destruct (encodeSextet v =? PAD)%N eqn:E; [|reflexivity].
  apply N.eqb_eq in E. rewrite E in H. discriminate.
Qed.

Definition isByte (b : Z) : Prop := 0 <= b < 256.

Ltac sextet_range :=
  match goal with
  | |- 0 <= _ < 64 => unfold isByte in *; Z.div_mod_to_equations; lia
  end.

(** Induction over a byte sequence three bytes at a time. *)
Lemma bytes_by_three (P : list Z -> Prop) :
  P [] -> (forall b0, P [b0]) -> (forall b0 b1, P [b0; b1]) ->
  (forall b0 b1 b2 rest, P rest -> P (b0 :: b1 :: b2 :: rest)) ->
  forall bytes, P bytes.
Proof.
  intros H0 H1 H2 H3.
  cut (forall bytes, P bytes /\ (forall b, P (b :: bytes)) /\
                     (forall b b', P (b :: b' :: bytes))).
  { intros H bytes. apply H. }
  induction bytes as [|b bytes (IH0 & IH1 & IH2)]; [auto|].
  split; [apply IH1|]. split; [intros b'; apply IH2|].
  intros b' b''. apply H3. exact IH0.
Qed.

Lemma encode_no_whitespace bytes :
  Forall isByte bytes ->
  List.filter (fun c => negb (isAsciiWhitespace c)) (encode bytes) = encode bytes.
Proof.
  revert bytes. apply (bytes_by_three (fun bytes => Forall isByte bytes -> _)).
  - reflexivity.
  - intros b0 Hb. inversion Hb as [|? ? H0 _]; subst. cbn [encode List.filter].
    rewrite !encodeSextet_not_whitespace by sextet_range. reflexivity.
  - intros b0 b1 Hb. inversion Hb as [|? ? H0 Hb']; subst.
    inversion Hb' as [|? ? H1 _]; subst. cbn [encode List.filter].
    rewrite !encodeSextet_not_whitespace by sextet_range. reflexivity.
  - intros b0 b1 b2 rest IH Hb. inversion Hb as [|? ? H0 Hb']; subst.
    inversion Hb' as [|? ? H1 Hb'']; subst. inversion Hb'' as [|? ? H2 Hrest]; subst.
    cbn [encode List.filter].
    rewrite !encodeSextet_not_whitespace by sextet_range.
    cbn [negb]. rewrite (IH Hrest). reflexivity.
Qed.

Lemma encode_length bytes : (length (encode bytes) mod 4 = 0)%nat.
Proof.
  revert bytes. apply bytes_by_three; try reflexivity.
  intros b0 b1 b2 rest IH. cbn [encode length].
  replace (S (S (S (S (length (encode rest)))))) with (length (encode rest) + 1 * 4)%nat
    by lia.
  rewrite Nat.Div0.mod_add. exact IH.
Qed.

Lemma encodeBare_length bytes : (length (encodeBare bytes) mod 4 <> 1)%nat.
Proof.
  revert bytes. apply bytes_by_three; try (simpl; lia).
  intros b0 b1 b2 rest IH. cbn [encodeBare length].
  replace (S (S (S (S (length (encodeBare rest))))))
    with (length (encodeBare rest) + 1 * 4)%nat by lia.
  rewrite Nat.Div0.mod_add. exact IH.
Qed.

(** The reversed encoding: its padding is in front. *)
Lemma stripPadding_encode bytes :
  Forall isByte bytes -> stripPadding (encode bytes) = encodeBare bytes.
Proof.
  revert bytes. apply (bytes_by_three (fun bytes => Forall isByte bytes -> _)).
  - reflexivity.
  - intros b0 _. reflexivity.
  - intros b0 b1 Hb. inversion Hb as [|? ? H0 Hb']; subst.
    inversion Hb' as [|? ? H1 _]; subst.
    unfold stripPadding. cbn [encode encodeBare rev app].
    rewrite N.eqb_refl. rewrite encodeSextet_not_padding by sextet_range. reflexivity.
  - intros b0 b1 b2 rest IH Hb. inversion Hb as [|? ? H0 Hb']; subst.
    inversion Hb' as [|? ? H1 Hb'']; subst. inversion Hb'' as [|? ? H2 Hrest]; subst.
    specialize (IH Hrest). cbn [encode encodeBare].
    set (c0 := encodeSextet (b0 / 4)). set (c1 := encodeSextet (b0 mod 4 * 16 + b1 / 16)).
    set (c2 := encodeSextet (b1 mod 16 * 4 + b2 / 64)). set (c3 := encodeSextet (b2 mod 64)).
    assert (Hc3 : (c3 =? PAD)%N = false) by (apply encodeSextet_not_padding; sextet_range).
    revert IH. unfold stripPadding. cbn [rev].
    destruct (rev (encode rest)) as [|p1 [|p2 r]] eqn:Hrev.
    + (* nothing follows the group *)
      apply (f_equal (@rev _)) in Hrev. rewrite rev_involutive in Hrev. simpl in Hrev.
      rewrite Hrev. intros <-. cbn. rewrite Hc3. reflexivity.
    + apply (f_equal (@rev _)) in Hrev. rewrite rev_involutive in Hrev. simpl in Hrev.
      pose proof (encode_length rest) as Hlen. rewrite Hrev in Hlen. discriminate.
    + cbn [app]. destruct (p1 =? PAD)%N.
      * destruct (p2 =? PAD)%N.
        -- intros <-. rewrite !rev_app_distr. reflexivity.
        -- intros <-. cbn [rev]. rewrite !rev_app_distr. reflexivity.
      * intros <-. reflexivity.
Qed.

Lemma sextets_encodeBare bytes :
  Forall isByte bytes ->
  exists values,
    sextets (encodeBare bytes) = Some values /\ decodeGroups values = bytes.
Proof.
  revert bytes. apply (bytes_by_three (fun bytes => Forall isByte bytes -> _)).
  - intros _. exists []. split; reflexivity.
  - intros b0 Hb. inversion Hb as [|? ? H0 _]; subst. cbn [encodeBare sextets].
    rewrite !decode_encodeSextet by sextet_range. eexists. split; [reflexivity|].
    cbn [decodeGroups]. f_equal. unfold isByte in *. Z.div_mod_to_equations. lia.
  - intros b0 b1 Hb. inversion Hb as [|? ? H0 Hb']; subst.
    inversion Hb' as [|? ? H1 _]; subst. cbn [encodeBare sextets].
    rewrite !decode_encodeSextet by sextet_range. eexists. split; [reflexivity|].
    cbn [decodeGroups]. unfold isByte in *.
    f_equal; [|f_equal]; Z.div_mod_to_equations; lia.
  - intros b0 b1 b2 rest IH Hb. inversion Hb as [|? ? H0 Hb']; subst.
    inversion Hb' as [|? ? H1 Hb'']; subst. inversion Hb'' as [|? ? H2 Hrest]; subst.
    destruct (IH Hrest) as (values & Hvalues & Hdecode).
    cbn [encodeBare sextets].
    rewrite !decode_encodeSextet by sextet_range. rewrite Hvalues.
    eexists. split; [reflexivity|]. cbn [decodeGroups]. rewrite Hdecode.
    unfold isByte in *.
    f_equal; [|f_equal; [|f_equal]]; Z.div_mod_to_equations; lia.
Qed.

(** Decoding an encoding gives the bytes back. *)
Lemma atob_encode bytes :
  Forall isByte bytes -> atob (encode bytes) = Normal (map Z.to_N bytes).
Proof.
  intros Hb. unfold atob. rewrite (encode_no_whitespace bytes Hb).
  rewrite (proj2 (Nat.eqb_eq _ _) (encode_length bytes)).
  rewrite (stripPadding_encode bytes Hb).
  rewrite (proj2 (Nat.eqb_neq _ _) (encodeBare_length bytes)).
  destruct (sextets_encodeBare bytes Hb) as (values & -> & ->). reflexivity.
Qed.

(** [atob(btoa(s))] is [s] for every string of bytes. *)
Lemma atob_btoa s :
  forallb (fun c => (c <=? 255)%N) s = true ->
  exists encoded, btoa s = Normal encoded /\ atob encoded = Normal s.
Proof.
  intros Hs. unfold btoa. rewrite Hs. eexists. split; [reflexivity|].
  rewrite atob_encode.
  - f_equal. rewrite map_map. rewrite <- (map_id s) at 2. apply map_ext.
    intros c. apply N2Z.id.
  - rewrite forallb_forall in Hs. apply Forall_forall. intros b Hin.
    apply list_elem_of_In, in_map_iff in Hin as (c & <- & Hc).
    specialize (Hs c Hc). apply N.leb_le in Hs. unfold isByte. lia.
Qed.

End Base64.
Import Base64.

(** The byte strings [atob] returns hold bytes only. *)
Lemma decodeSextet_range c v : decodeSextet c = Some v -> 0 <= v < 64.
Proof.
  unfold decodeSextet. cbv zeta.
  repeat match goal with
         | |- context [if ?b then _ else _] => destruct b eqn:?
         end; intros [= <-]; lia.
Qed.

Lemma sextets_range data values :
  sextets data = Some values -> Forall (fun v => 0 <= v < 64) values.
Proof.
  revert values. induction data as [|c data IH]; intros values; simpl.
  - intros [= <-]. constructor.
  - destruct (decodeSextet c) as [v|] eqn:Hc; [|discriminate].
    destruct (sextets data) as [vs|]; [|discriminate]. intros [= <-].
    constructor; [eapply decodeSextet_range; eassumption|auto].
Qed.

Lemma decodeGroups_bytes values :
  Forall (fun v => 0 <= v < 64) values -> Forall isByte (decodeGroups values).
Proof.
  assert (Hstep : forall v0 v1, 0 <= v0 < 64 -> 0 <= v1 < 64 ->
                    isByte (v0 * 4 + v1 / 16)).
  { intros. unfold isByte. Z.div_mod_to_equations. lia. }
  assert (Hmid : forall v1 v2, 0 <= v1 < 64 -> 0 <= v2 < 64 ->
                   isByte (v1 mod 16 * 16 + v2 / 4)).
  { intros. unfold isByte. Z.div_mod_to_equations. lia. }
  assert (Hlast : forall v2 v3, 0 <= v2 < 64 -> 0 <= v3 < 64 ->
                    isByte (v2 mod 4 * 64 + v3)).
  { intros. unfold isByte. Z.div_mod_to_equations. lia. }
  intros Hall. remember (length values) as n eqn:Hn.
  assert (Hle : (length values <= n)%nat) by lia. clear Hn.
  revert values Hall Hle. induction n as [|n IH]; intros values Hall Hle.
  { destruct values; [constructor|simpl in Hle; lia]. }
  destruct values as [|v0 [|v1 [|v2 [|v3 rest]]]]; cbn [decodeGroups];
    repeat match goal with
           | H : Forall _ (_ :: _) |- _ => inversion H; subst; clear H
           end;
    repeat (apply List.Forall_cons; [solve [auto]|]);
    try apply List.Forall_nil.
  apply IH; [assumption|]. simpl in Hle. lia.
Qed.

Lemma atob_byte_string data binaryString :
  atob data = Normal binaryString ->
  map (fun c => Z.of_N c mod 256) binaryString = map Z.of_N binaryString /\
  forallb (fun c => (c <=? 255)%N) binaryString = true.
Proof.
  unfold atob. cbv zeta.
  match goal with |- context [sextets ?d] => generalize d end. intros d.
  destruct (length d mod 4 =? 1)%nat; [discriminate|].
  destruct (sextets d) as [values|] eqn:Hd; [|discriminate]. intros [= <-].
  pose proof (decodeGroups_bytes values (sextets_range d values Hd)) as Hbytes.
  induction Hbytes as [|b bytes Hb _ [IH1 IH2]]; [split; reflexivity|].
  unfold isByte in Hb. split.
  - simpl. rewrite IH1. f_equal. rewrite Z2N.id by lia. apply Z.mod_small. lia.
  - simpl. rewrite IH2. rewrite andb_true_r. apply N.leb_le. lia.
Qed.

(** * Uploads: transcription, image scanning and live capture *)

Module Upload.

(** ** Request bodies *)

(** [new File([new Blob([bytes], {type})], name, {type})], by the
    arguments it was built with. *)
Record File := mkFile { fileBytes : list byte; fileName : str; fileType : str }.

Inductive FormValue :=
| FormFile (file : File)
| FormText (value : str).

(** A [FormData]: its entries in the order of the [append] calls. *)
Abbreviation FormData := (list (str * FormValue)).

(** The [content] of a chat message: a text, or an array of parts. *)
Inductive ContentPart :=
| TextPart (text : str)
| ImageUrlPart (url detail : str).

Inductive Content :=
| Text (text : str)
| Parts (parts : list ContentPart).

Record Message := mkMsg { msgRole : Role; msgContent : Content }.

(** The [body] objects of the upload paths. *)
Inductive Body :=
| FormDataBody (formData : FormData)
| VisionCompletionBody (model : str) (msgs : list Message)
                       (max_tokens : Z) (temperature : float).

Inductive Payload :=
| FormPayload (b : Body)
| JsonPayload (b : Body).

Record FetchCall := mkFetch {
  url : str;
  method : str;
  headers : list (str * str);
  payload : Payload
}.

Record Response := mkResponse {
  ok : bool;
  status : Z;
  json : option JsonData;    (* [None]: [json()] rejects *)
  text : option str          (* [None]: [text()] rejects *)
}.

Inductive NetEvent :=
| Responds (latency : Z) (response : Response)
| NetworkFailure (latency : Z) (message : str)
| NoAnswer.

(** ** The world: calls issued so far and the live sessions alive *)

(** The identity of a function handed in as a callback. *)
Definition callback := nat.

Record LiveTranscriptionSession := mkLive {
  audioChunks : list (list float);
  onTranscriptUpdate : callback;
  isActive : bool
}.

Record World := mkWorld {
  fetched : list FetchCall;
  sessions : gmap loc LiveTranscriptionSession
}.

(** What is outside the module: the key, the network, and the properties
    a plain object inherits ([inherited key] is the text a truthy
    inherited property [key] interpolates to). *)
Class Environment := {
  OPENAI_API_KEY : str;
  network : list FetchCall -> FetchCall -> NetEvent;
  inherited : str -> option str
}.

Definition M (A : Type) : Type := World -> World * Completion A.

Definition ret {A} (a : A) : M A := fun w => (w, Normal a).

Definition throw {A} (e : JsError) : M A := fun w => (w, Throw e).

Definition bind {A B} (m : M A) (k : A -> M B) : M B :=
  fun w => match m w with
           | (w', Normal a) => k a w'
           | (w', Throw e) => (w', Throw e)
           end.

Definition try_catch {A} (body : M A) (handler : JsError -> M A) : M A :=
  fun w => match body w with
           | (w', Normal a) => (w', Normal a)
           | (w', Throw e) => handler e w'
           end.

(** A call that leaves the world alone. *)
Definition pure {A} (c : Completion A) : M A := fun w => (w, c).

Declare Scope upload_scope.

Notation "'let*' x ':=' m 'in' k" := (bind m (fun x => k))
  (at level 10, x name, m at level 200, k at level 200, only parsing) : upload_scope.

Local Open Scope upload_scope.

Definition timedOut (ev : NetEvent) (timeoutMs : Z) : bool :=
  match ev with
  | Responds latency _ => timeoutMs <? latency
  | NetworkFailure latency _ => timeoutMs <? latency
  | NoAnswer => true
  end.

(** [!s] on a string *)
Definition isEmpty (s : str) : bool :=
  match s with
  | [] => true
  | _ :: _ => false
  end.

Section Service.

Context {env : Environment}.

(** ** The request helper, on these bodies *)

Definition fetch (call : FetchCall) (timeoutMs : Z) : M Response :=
  fun w =>
    let ev := network (fetched w) call in
    let w' := mkWorld (fetched w ++ [call]) (sessions w) in
    if timedOut ev timeoutMs then (w', Throw AbortError)
    else match ev with
         | Responds _ response => (w', Normal response)
         | NetworkFailure _ message => (w', Throw (TypeError message))
         | NoAnswer => (w', Throw AbortError)
         end.

Definition errorMessageOf (response : Response) : M (option str) :=
  match json response with
  | None => ret None
  | Some JsonNull => throw (TypeError (js "Cannot read properties of null"))
  | Some (JsonObject error_message _) => ret error_message
  end.

Definition openaiRequest (endpoint : str) (body : Body)
    (isFormData : bool) (timeoutMs : Z) : M Response :=
  let headers := [(js "Authorization", js "Bearer " ++ OPENAI_API_KEY)] in
  let headers :=
    if negb isFormData
    then headers ++ [(js "Content-Type", js "application/json")]
    else headers in
  try_catch
    (let* response :=
       fetch (mkFetch (OPENAI_BASE_URL ++ endpoint) (js "POST") headers
                (if isFormData then FormPayload body else JsonPayload body))
             timeoutMs in
     if negb (ok response) then
       let* message := errorMessageOf response in
       throw (Error (orDefault message
                       (js "OpenAI API error: " ++ decimal (status response))))
     else ret response)
    (fun error =>
       if strEq (errName error) (js "AbortError")
       then throw (Error TIMEOUT_MESSAGE)
       else throw error).

(** [await response.text()] *)
Definition readText (response : Response) : M str :=
  match text response with
  | Some body => ret body
  | None => throw (TypeError (js "Failed to fetch"))
  end.

(** [await response.json()] *)
Definition readJson (response : Response) : M JsonData :=
  match json response with
  | Some data => ret data
  | None => throw (mkError (js "SyntaxError") (js "Unexpected token"))
  end.

(** [data.choices?.[0]?.message?.content] *)
Definition choiceContent (data : JsonData) : M (option str) :=
  match data with
  | JsonNull => throw (TypeError (js "Cannot read properties of null"))
  | JsonObject _ choice_content => ret choice_content
  end.

(** ** Transcription of an audio file *)

Definition INVALID_FILE : str := js "Invalid file data provided.".

Definition TRANSCRIPTION_FALLBACK : str :=
  js "Could not transcribe the audio. The content may be empty or unclear.".

Definition TRANSCRIPTION_ERROR : str :=
  js "An error occurred during transcription. The file might be too large or in an unsupported format.".

Definition extensionMap : list (str * str) :=
  [(js "audio/mpeg", js "mp3");
   (js "audio/mp3", js "mp3");
   (js "audio/wav", js "wav");
   (js "audio/x-wav", js "wav");
   (js "audio/mp4", js "m4a");
   (js "audio/m4a", js "m4a");
   (js "audio/webm", js "webm");
   (js "video/webm", js "webm");
   (js "video/mp4", js "mp4")].

(** A property of an object literal, by its own keys. *)
Fixpoint ownProperty (object : list (str * str)) (key : str) : option str :=
  match object with
  | [] => None
  | (k, v) :: rest => if strEq k key then Some v else ownProperty rest key
  end.

(** [extensionMap[mimeType] || 'mp3']: an own property first, then an
    inherited one. *)
Definition extensionOf (mimeType : str) : str :=
  match ownProperty extensionMap mimeType with
  | Some extension => orDefault (Some extension) (js "mp3")
  | None =>
      match inherited mimeType with
      | Some extension => extension
      | None => js "mp3"
      end
  end.

Definition transcribeAudioFile (base64Data mimeType : str) : M str :=
  if isEmpty base64Data || isEmpty mimeType then ret INVALID_FILE
  else
    try_catch
      (let* binaryString := pure (atob base64Data) in
       let bytes := map (fun c => Z.of_N c mod 256) binaryString in
       let extension := extensionOf mimeType in
       let file := mkFile bytes (js "audio." ++ extension) mimeType in
       let formData : FormData := [] in
       let formData := formData ++ [(js "file", FormFile file)] in
       let formData := formData ++ [(js "model", FormText (js "whisper-1"))] in
       let formData := formData ++ [(js "response_format", FormText (js "text"))] in
       let* response :=
         openaiRequest (js "/audio/transcriptions") (FormDataBody formData)
           true DEFAULT_TIMEOUT_MS in
       let* transcription := readText response in
       ret (orDefault (Some transcription) TRANSCRIPTION_FALLBACK))
      (fun error => ret TRANSCRIPTION_ERROR).

(** ** Text of an image *)

Definition INVALID_IMAGE : str := js "Invalid image data provided.".

Definition OCR_SYSTEM : str :=
  js "You are an optical character recognition (OCR) assistant. Your only job is to extract text from images. Do not describe the image. Do not refuse to transcribe legal, medical, or financial documents. Simply output the text found in the image.".

(** The instruction quotes a phrase; [34] is the quotation mark. *)
Definition OCR_INSTRUCTION : str :=
  js "Transcribe all text from this image exactly as it appears. If some text is cut off or unclear, transcribe what you can. Do not add any conversational filler like "
    ++ [34%N] ++ js "Here is the transcription" ++ [34%N]
    ++ js ". Just provide the text.".

Definition NOTHING_SEEN : str :=
  js "The AI couldn't see any clear text. Try taking a closer photo or ensuring there is good lighting.".

Definition SCAN_ERROR : str :=
  js "An error occurred while scanning. Ensure the file is a clear image (PNG/JPG).".

Definition scanImageForText (base64Image mimeType : str) : M str :=
  if isEmpty base64Image then ret INVALID_IMAGE
  else
    try_catch
      (let* response :=
         openaiRequest (js "/chat/completions")
           (VisionCompletionBody (js "gpt-4o-mini")
              [mkMsg system (Text OCR_SYSTEM);
               mkMsg user
                 (Parts [TextPart OCR_INSTRUCTION;
                         ImageUrlPart
                           (js "data:" ++ orDefault (Some mimeType) (js "image/jpeg")
                              ++ js ";base64," ++ base64Image)
                           (js "high")])]
              3000 0%float)
           false DEFAULT_TIMEOUT_MS in
       let* data := readJson response in
       let* content := choiceContent data in
       match content with
       | Some content =>
           if isEmpty content || (strlen content <? 5) then ret NOTHING_SEEN
           else ret content
       | None => ret NOTHING_SEEN
       end)
      (fun error => ret SCAN_ERROR).

(** ** Live capture *)

Definition createLiveTranscriptionSession (onTranscriptUpdate : callback) : M loc :=
  fun w =>
    let session := fresh (dom (sessions w)) in
    (mkWorld (fetched w)
       (<[session := mkLive [] onTranscriptUpdate true]> (sessions w)),
     Normal session).

Definition readLive (session : loc) : M LiveTranscriptionSession :=
  fun w =>
    match sessions w !! session with
    | Some s => (w, Normal s)
    | None => (w, Throw (TypeError (js "Cannot read properties of undefined")))
    end.

(** An assignment to [session.audioChunks], or a [push] on it. *)
Definition writeChunks (session : loc) (chunks : list (list float)) : M unit :=
  fun w =>
    match sessions w !! session with
    | Some s =>
        (mkWorld (fetched w)
           (<[session := mkLive chunks (onTranscriptUpdate s) (isActive s)]>
              (sessions w)),
         Normal tt)
    | None => (w, Throw (TypeError (js "Cannot set properties of undefined")))
    end.

Definition addAudioChunk (session : loc) (chunk : list float) : M unit :=
  let* s := readLive session in
  if isActive s then writeChunks session (audioChunks s ++ [chunk])
  else ret tt.

(** [combinedAudio.set(chunk, offset)] for a chunk that fits. *)
Definition float32Set (target chunk : list float) (offset : nat) : list float :=
  take offset target ++ chunk ++ drop (offset + length chunk) target.

Fixpoint copyChunks (combinedAudio : list float) (offset : nat)
    (chunks : list (list float)) : list float :=
  match chunks with
  | [] => combinedAudio
  | chunk :: rest =>
      copyChunks (float32Set combinedAudio chunk offset) (offset + length chunk) rest
  end.

(** [String.fromCharCode(b)] *)
Definition fromCharCode (b : Z) : code_unit := Z.to_N (b mod 65536).

Definition processLiveTranscription (session : loc) : M str :=
  let* s := readLive session in
  if (length (audioChunks s) =? 0)%nat then ret []
  else
    try_catch
      (let* s := readLive session in
       let totalLength :=
         fold_left (fun sum chunk => (sum + length chunk)%nat) (audioChunks s) 0%nat in
       let combinedAudio :=
         copyChunks (replicate totalLength 0%float) 0 (audioChunks s) in
       let* wavBlob := pure (float32ArrayToWav combinedAudio 16000) in
       let bytes := blobBytes wavBlob in
       let binary := map fromCharCode bytes in
       let* base64 := pure (btoa binary) in
       let* transcription := transcribeAudioFile base64 (js "audio/wav") in
       let* _ := writeChunks session [] in
       ret transcription)
      (fun error => ret []).

End Service.

(** ** What a request does, on these bodies *)

Definition record (w : World) (calls : list FetchCall) : World :=
  mkWorld (fetched w ++ calls) (sessions w).

Lemma upload_record_nil w : record w [] = w.
Proof. destruct w. unfold record. simpl. rewrite app_nil_r. reflexivity. Qed.

Section Facts.

Context {env : Environment}.

(** The one [fetch] call a request makes. *)
Definition issued (endpoint : str) (body : Body) (isFormData : bool) : FetchCall :=
  mkFetch (OPENAI_BASE_URL ++ endpoint) (js "POST")
    ((js "Authorization", js "Bearer " ++ OPENAI_API_KEY)
       :: (if isFormData then [] else [(js "Content-Type", js "application/json")]))
    (if isFormData then FormPayload body else JsonPayload body).

(** How a request ends, given what the network did with its call. *)
Definition requestOutcome (ev : NetEvent) (timeoutMs : Z) : Completion Response :=
  if timedOut ev timeoutMs then Throw (Error TIMEOUT_MESSAGE)
  else match ev with
       | Responds _ response =>
           if ok response then Normal response
           else match json response with
                | Some JsonNull => Throw (TypeError (js "Cannot read properties of null"))
                | Some (JsonObject error_message _) =>
                    Throw (Error (orDefault error_message
                                    (js "OpenAI API error: " ++ decimal (status response))))
                | None =>
                    Throw (Error (js "OpenAI API error: " ++ decimal (status response)))
                end
       | NetworkFailure _ message => Throw (TypeError message)
       | NoAnswer => Throw (Error TIMEOUT_MESSAGE)
       end.

Lemma upload_request_run endpoint body isFormData timeoutMs w :
  openaiRequest endpoint body isFormData timeoutMs w =
  (record w [issued endpoint body isFormData],
   requestOutcome (network (fetched w) (issued endpoint body isFormData)) timeoutMs).
Proof.
  unfold openaiRequest, try_catch, bind, fetch, requestOutcome, issued, record.
  destruct isFormData; simpl;
    match goal with
    | |- context [timedOut ?ev timeoutMs] =>
        destruct (timedOut ev timeoutMs) eqn:Hto; [reflexivity|];
        destruct ev as [latency response|latency message|] eqn:Hev
    end;
    try reflexivity; try discriminate;
    (destruct (ok response); simpl; [reflexivity|];
     unfold errorMessageOf;
     destruct (json response) as [[|error_message content]|]; reflexivity).
Qed.

(** *** Transcription *)

(** The form the transcription call carries. *)
Definition transcriptionForm (bytes : list byte) (mimeType : str) : FormData :=
  [(js "file", FormFile (mkFile bytes (js "audio." ++ extensionOf mimeType) mimeType));
   (js "model", FormText (js "whisper-1"));
   (js "response_format", FormText (js "text"))].

Definition uploadCall (bytes : list byte) (mimeType : str) : FetchCall :=
  issued (js "/audio/transcriptions") (FormDataBody (transcriptionForm bytes mimeType)) true.

(** The text a transcription ends with, by the outcome of its request. *)
Definition transcriptOf (outcome : Completion Response) : str :=
  match outcome with
  | Normal response =>
      match text response with
      | Some (c :: transcription) => c :: transcription
      | Some [] => TRANSCRIPTION_FALLBACK
      | None => TRANSCRIPTION_ERROR
      end
  | Throw _ => TRANSCRIPTION_ERROR
  end.

Lemma transcriptOf_nonempty outcome : transcriptOf outcome <> [].
Proof.
  unfold transcriptOf. destruct outcome as [response|e]; [|discriminate].
  destruct (text response) as [[|c transcription]|]; discriminate.
Qed.

Lemma transcribeAudioFile_run base64Data mimeType binaryString w :
  base64Data <> [] -> mimeType <> [] ->
  atob base64Data = Normal binaryString ->
  transcribeAudioFile base64Data mimeType w =
  (record w [uploadCall (map Z.of_N binaryString) mimeType],
   Normal (transcriptOf
             (requestOutcome
                (network (fetched w) (uploadCall (map Z.of_N binaryString) mimeType))
                DEFAULT_TIMEOUT_MS))).
Proof.
  intros Hdata Hmime Hatob.
  destruct base64Data as [|c0 data]; [congruence|].
  destruct mimeType as [|m0 mime]; [congruence|].
  unfold transcribeAudioFile. cbn [isEmpty orb].
  unfold try_catch, bind, pure. rewrite Hatob.
  rewrite (proj1 (atob_byte_string _ _ Hatob)).
  cbn [app]. rewrite upload_request_run.
  fold (transcriptionForm (map Z.of_N binaryString) (m0 :: mime)).
  fold (uploadCall (map Z.of_N binaryString) (m0 :: mime)).
  destruct (requestOutcome _ _) as [response|e]; [|reflexivity].
  unfold readText, transcriptOf.
  destruct (text response) as [[|c transcription]|]; reflexivity.
Qed.

Lemma transcribeAudioFile_malformed base64Data mimeType e w :
  base64Data <> [] -> mimeType <> [] ->
  atob base64Data = Throw e ->
  transcribeAudioFile base64Data mimeType w = (w, Normal TRANSCRIPTION_ERROR).
Proof.
  intros Hdata Hmime Hatob.
  destruct base64Data as [|c0 data]; [congruence|].
  destruct mimeType as [|m0 mime]; [congruence|].
  unfold transcribeAudioFile. cbn [isEmpty orb].
  unfold try_catch, bind, pure. rewrite Hatob. reflexivity.
Qed.

Lemma transcribeAudioFile_missing base64Data mimeType w :
  base64Data = [] \/ mimeType = [] ->
  transcribeAudioFile base64Data mimeType w = (w, Normal INVALID_FILE).
Proof.
  intros [-> | ->]; unfold transcribeAudioFile; [reflexivity|].
  destruct base64Data; reflexivity.
Qed.

(** *** The extension table *)

Lemma ownProperty_absent object key :
  (forall value, ~ In (key, value) object) -> ownProperty object key = None.
Proof.
  induction object as [|[k v] object IH]; intros Hnot; [reflexivity|].
  simpl. unfold strEq. destruct (bool_decide_reflect (k = key)) as [->|Hne].
  - exfalso. apply (Hnot v). left. reflexivity.
  - apply IH. intros value Hin. apply (Hnot value). right. exact Hin.
Qed.

Lemma ownProperty_extensionMap mimeType extension :
  In (mimeType, extension) extensionMap ->
  ownProperty extensionMap mimeType = Some extension.
Proof.
  unfold extensionMap. intros Hin.
  repeat (destruct Hin as [[= <- <-]|Hin]; [vm_compute; reflexivity|]).
  destruct Hin.
Qed.

(** *** Live capture *)

Lemma copyChunks_concat chunks done rest :
  length rest = length (concat chunks) ->
  copyChunks (done ++ rest) (length done) chunks = done ++ concat chunks.
Proof.
  revert done rest. induction chunks as [|chunk chunks IH]; intros done rest Hlen;
    simpl in *.
  - destruct rest; [rewrite app_nil_r; reflexivity|discriminate].
  - rewrite length_app in Hlen. unfold float32Set.
    rewrite take_app_length, drop_app_add.
    rewrite (app_assoc done chunk), <- length_app.
    rewrite IH by (rewrite length_drop; lia).
    rewrite <- app_assoc. reflexivity.
Qed.

Lemma chunks_total_length (chunks : list (list float)) :
  fold_left (fun sum chunk => (sum + length chunk)%nat) chunks 0%nat
  = length (concat chunks).
Proof.
  cut (forall n, fold_left (fun sum chunk => (sum + length chunk)%nat) chunks n
                 = (n + length (concat chunks))%nat).
  { intros H. apply H. }
  induction chunks as [|chunk chunks IH]; intros n; simpl; [lia|].
  rewrite IH, length_app. lia.
Qed.

Lemma combinedAudio_concat (chunks : list (list float)) :
  copyChunks (replicate (length (concat chunks)) 0%float) 0 chunks = concat chunks.
Proof. apply (copyChunks_concat chunks []). apply length_replicate. Qed.

Lemma le16_isByte value : Forall isByte (le16 value).
Proof.
  unfold le16, isByte. cbv zeta.
  repeat (apply List.Forall_cons; [Z.div_mod_to_equations; lia|]).
  apply List.Forall_nil.
Qed.

Lemma le32_isByte value : Forall isByte (le32 value).
Proof.
  unfold le32, isByte. cbv zeta.
  repeat (apply List.Forall_cons; [Z.div_mod_to_equations; lia|]).
  apply List.Forall_nil.
Qed.

Lemma wav_isByte audioData sampleRate :
  Forall isByte (wavHeader (length audioData) sampleRate ++ flat_map pcmBytes audioData).
Proof.
  apply Forall_app. split.
  - unfold wavHeader. cbv zeta.
    repeat (apply Forall_app; split);
      try apply le32_isByte; try apply le16_isByte;
      repeat (apply List.Forall_cons; [unfold isByte; lia|]); apply List.Forall_nil.
  - induction audioData as [|x audioData IH]; [apply List.Forall_nil|].
    cbn [flat_map]. apply Forall_app_2; [apply le16_isByte|exact IH].
Qed.

Lemma btoa_bytes bytes :
  Forall isByte bytes -> btoa (map fromCharCode bytes) = Normal (encode bytes).
Proof.
  intros Hbytes. unfold btoa.
  assert (Hall : forallb (fun c => (c <=? 255)%N) (map fromCharCode bytes) = true).
  { induction Hbytes as [|b bytes Hb _ IH]; [reflexivity|].
    simpl. rewrite IH, andb_true_r. apply N.leb_le. unfold fromCharCode, isByte in *.
    rewrite Z.mod_small by lia. lia. }
  rewrite Hall. f_equal. f_equal.
  induction Hbytes as [|b bytes Hb _ IH]; [reflexivity|].
  simpl in *. apply andb_true_iff in Hall as [_ Hall]. rewrite (IH Hall). f_equal.
  unfold fromCharCode, isByte in *. rewrite Z.mod_small by lia. apply Z2N.id. lia.
Qed.

Lemma bytes_of_N_to_N bytes :
  Forall isByte bytes -> map Z.of_N (map Z.to_N bytes) = bytes.
Proof.
  intros Hbytes. induction Hbytes as [|b bytes Hb _ IH]; [reflexivity|].
  simpl. rewrite IH. f_equal. apply Z2N.id. unfold isByte in Hb. lia.
Qed.

(** The WAV file of the chunks of a session, at the rate the capture
    path uses. *)
Definition wavOf (chunks : list (list float)) : list byte :=
  wavHeader (length (concat chunks)) 16000 ++ flat_map pcmBytes (concat chunks).

Lemma processLiveTranscription_run session s w :
  sessions w !! session = Some s ->
  audioChunks s <> [] ->
  let call := uploadCall (wavOf (audioChunks s)) (js "audio/wav") in
  processLiveTranscription session w =
  (mkWorld (fetched w ++ [call])
     (<[session := mkLive [] (onTranscriptUpdate s) (isActive s)]> (sessions w)),
   Normal (transcriptOf (requestOutcome (network (fetched w) call) DEFAULT_TIMEOUT_MS))).
Proof.
  intros Hs Hchunks call.
  assert (Hlen : (length (audioChunks s) =? 0)%nat = false).
  { destruct (audioChunks s); [congruence|reflexivity]. }
  unfold processLiveTranscription, bind at 1, readLive at 1. rewrite Hs, Hlen.
  unfold try_catch, bind, readLive, pure. rewrite Hs.
  rewrite chunks_total_length.
  rewrite combinedAudio_concat. rewrite float32ArrayToWav_bytes. cbn [blobBytes].
  fold (wavOf (audioChunks s)).
  pose proof (wav_isByte (concat (audioChunks s)) 16000) as Hwav.
  fold (wavOf (audioChunks s)) in Hwav.
  rewrite (btoa_bytes _ Hwav).
  rewrite (transcribeAudioFile_run _ _ (map Z.to_N (wavOf (audioChunks s)))).
  - rewrite (bytes_of_N_to_N _ Hwav). fold call.
    unfold writeChunks, record, ret. cbn [sessions fetched]. rewrite Hs. reflexivity.
  - unfold wavOf, wavHeader. cbn [app]. discriminate.
  - discriminate.
  - apply atob_encode. exact Hwav.
Qed.

Lemma processLiveTranscription_idle session s w :
  sessions w !! session = Some s ->
  audioChunks s = [] ->
  processLiveTranscription session w = (w, Normal []).
Proof.
  intros Hs Hnone. unfold processLiveTranscription, bind, readLive.
  rewrite Hs, Hnone. reflexivity.
Qed.

End Facts.

End Upload.

Import Upload.
Local Open Scope upload_scope.

(** ** Properties of the upload paths *)

(** A service that transcribes everything to the same sentence, and a
    network that never answers. *)
Definition transcribingService : Environment :=
  {| OPENAI_API_KEY := js "sk-test";
     network := fun _ _ =>
       Responds 800 (mkResponse true 200 None (Some (js "Hello there.")));
     inherited := fun _ => None |}.

Definition deadNetwork : Environment :=
  {| OPENAI_API_KEY := js "sk-test";
     network := fun _ _ => NoAnswer;
     inherited := fun _ => None |}.

Definition noUploads : World := mkWorld [] ∅.

(** A capture in progress: two chunks of samples in session [0]. *)
Definition capturing : World :=
  mkWorld [] {[ 0%nat := mkLive [[0.5%float; (-0.5)%float]; [1%float]] 7%nat true ]}.

Section UploadProperties.

Context {env : Environment}.

(** X15. A transcription of well-formed base64 data makes exactly one
    call: a form, sent without a content type header, whose file holds
    the decoded bytes under the name [audio.<extension>] and the given
    type, followed by the model and the response format. The result is
    the text of the answer, a fallback text when that is empty, and the
    error text when the request fails. *)
Theorem transcription_uploads_decoded_bytes base64Data mimeType binaryString w :
  base64Data <> [] -> mimeType <> [] ->
  atob base64Data = Normal binaryString ->
  exists call,
    transcribeAudioFile base64Data mimeType w =
      (record w [call],
       Normal (transcriptOf
                 (requestOutcome (network (fetched w) call) DEFAULT_TIMEOUT_MS))) /\
    url call = OPENAI_BASE_URL ++ js "/audio/transcriptions" /\
    headers call = [(js "Authorization", js "Bearer " ++ OPENAI_API_KEY)] /\
    payload call =
      FormPayload
        (FormDataBody
           [(js "file",
             FormFile (mkFile (map Z.of_N binaryString)
                         (js "audio." ++ extensionOf mimeType) mimeType));
            (js "model", FormText (js "whisper-1"));
            (js "response_format", FormText (js "text"))]).
Proof.
  intros Hdata Hmime Hatob.
  exists (uploadCall (map Z.of_N binaryString) mimeType).
  split; [apply transcribeAudioFile_run; assumption|].
  split; [reflexivity|]. split; reflexivity.
Qed.

(** X16. Missing data or a missing type, and data that is not base64,
    end a transcription before any call: the result is the text for
    invalid data in the first case and the error text in the second, and
    the world is as it was. *)
Theorem transcription_bad_input_no_call base64Data mimeType w :
  base64Data = [] \/ mimeType = [] \/ (exists e, atob base64Data = Throw e) ->
  transcribeAudioFile base64Data mimeType w =
  (w, Normal (if isEmpty base64Data || isEmpty mimeType
              then INVALID_FILE else TRANSCRIPTION_ERROR)).
Proof.
  intros Hbad.
  destruct base64Data as [|c0 data].
  { rewrite transcribeAudioFile_missing by (left; reflexivity). reflexivity. }
  destruct mimeType as [|m0 mime].
  { rewrite transcribeAudioFile_missing by (right; reflexivity). reflexivity. }
  destruct Hbad as [Hbad|[Hbad|[e Hbad]]]; try discriminate.
  rewrite (transcribeAudioFile_malformed _ _ e) by (assumption || discriminate).
  reflexivity.
Qed.

(** X17. A transcription never throws and never returns the empty text;
    it leaves the live sessions alone and makes at most one call. *)
Theorem transcription_always_text base64Data mimeType w :
  exists result w',
    transcribeAudioFile base64Data mimeType w = (w', Normal result) /\
    result <> [] /\
    sessions w' = sessions w /\
    (w' = w \/ exists call, fetched w' = fetched w ++ [call]).
Proof.
  destruct base64Data as [|c0 data].
  { eexists _, _. split; [apply transcribeAudioFile_missing; left; reflexivity|].
    split; [discriminate|]. split; [reflexivity|left; reflexivity]. }
  destruct mimeType as [|m0 mime].
  { eexists _, _. split; [apply transcribeAudioFile_missing; right; reflexivity|].
    split; [discriminate|]. split; [reflexivity|left; reflexivity]. }
  destruct (atob (c0 :: data)) as [binaryString|e] eqn:Hatob.
  - eexists _, _. split; [apply (transcribeAudioFile_run _ _ binaryString); congruence|].
    split; [apply transcriptOf_nonempty|]. split; [reflexivity|].
    right. eexists. reflexivity.
  - eexists _, _. split; [apply (transcribeAudioFile_malformed _ _ e); congruence|].
    split; [discriminate|]. split; [reflexivity|left; reflexivity].
Qed.

(** X18. The extension of the uploaded file name is the one the table
    lists for the type; a type the table does not list, and that names
    no inherited property either, gets [mp3]. *)
Theorem upload_file_extension mimeType :
  (forall extension,
      In (mimeType, extension) extensionMap -> extensionOf mimeType = extension) /\
  ((forall extension, ~ In (mimeType, extension) extensionMap) ->
   inherited mimeType = None -> extensionOf mimeType = js "mp3").
Proof.
  split.
  - intros extension Hin. unfold extensionOf.
    rewrite (ownProperty_extensionMap _ _ Hin).
    assert (Hne : extension <> []).
    { unfold extensionMap in Hin.
      repeat (destruct Hin as [[= <- <-]|Hin]; [discriminate|]). destruct Hin. }
    destruct extension; [congruence|reflexivity].
  - intros Hnot Hinh. unfold extensionOf.
    rewrite (ownProperty_absent _ _ Hnot), Hinh. reflexivity.
Qed.

(** *** Text of an image *)

Definition scanCall (base64Image mimeType : str) : FetchCall :=
  issued (js "/chat/completions")
    (VisionCompletionBody (js "gpt-4o-mini")
       [mkMsg system (Text OCR_SYSTEM);
        mkMsg user
          (Parts [TextPart OCR_INSTRUCTION;
                  ImageUrlPart
                    (js "data:" ++ (if isEmpty mimeType then js "image/jpeg" else mimeType)
                       ++ js ";base64," ++ base64Image)
                    (js "high")])]
       3000 0%float)
    false.

(** The text a scan ends with, by the outcome of its request. *)
Definition scanTextOf (outcome : Completion Response) : str :=
  match outcome with
  | Normal response =>
      match json response with
      | Some (JsonObject _ (Some content)) =>
          if strlen content <? 5 then NOTHING_SEEN else content
      | Some (JsonObject _ None) => NOTHING_SEEN
      | _ => SCAN_ERROR
      end
  | Throw _ => SCAN_ERROR
  end.

Lemma scanImageForText_run base64Image mimeType w :
  base64Image <> [] ->
  scanImageForText base64Image mimeType w =
  (record w [scanCall base64Image mimeType],
   Normal (scanTextOf
             (requestOutcome (network (fetched w) (scanCall base64Image mimeType))
                DEFAULT_TIMEOUT_MS))).
Proof.
  intros Himage. destruct base64Image as [|c0 image]; [congruence|].
  unfold scanImageForText. cbn [isEmpty].
  unfold try_catch, bind at 1. rewrite upload_request_run.
  replace (orDefault (Some mimeType) (js "image/jpeg"))
    with (if isEmpty mimeType then js "image/jpeg" else mimeType)
    by (destruct mimeType; reflexivity).
  fold (scanCall (c0 :: image) mimeType).
  destruct (requestOutcome _ _) as [response|e]; [|reflexivity].
  unfold bind, readJson, scanTextOf.
  destruct (json response) as [[|error_message [content|]]|]; try reflexivity.
  cbn. destruct content as [|c content]; [reflexivity|]. cbn [isEmpty orb].
  destruct (strlen (c :: content) <? 5); reflexivity.
Qed.

(** X19. A scan of image data makes exactly one call, a chat completion
    whose user message carries the instruction and the image as a data
    URL of the given type, [image/jpeg] when none is given. An answer of
    fewer than five code units, or none, is replaced by the text for an
    unreadable image; a failed request gives the error text. *)
Theorem scan_single_call base64Image mimeType w :
  base64Image <> [] ->
  exists call,
    scanImageForText base64Image mimeType w =
      (record w [call],
       Normal (scanTextOf
                 (requestOutcome (network (fetched w) call) DEFAULT_TIMEOUT_MS))) /\
    url call = OPENAI_BASE_URL ++ js "/chat/completions" /\
    payload call =
      JsonPayload
        (VisionCompletionBody (js "gpt-4o-mini")
           [mkMsg system (Text OCR_SYSTEM);
            mkMsg user
              (Parts [TextPart OCR_INSTRUCTION;
                      ImageUrlPart
                        (js "data:"
                           ++ (if isEmpty mimeType then js "image/jpeg" else mimeType)
                           ++ js ";base64," ++ base64Image)
                        (js "high")])]
           3000 0%float).
Proof.
  intros Himage. exists (scanCall base64Image mimeType).
  split; [apply scanImageForText_run; assumption|]. split; reflexivity.
Qed.


(** *** Live capture *)

(** X21. Processing a session that holds chunks makes exactly one call:
    the upload of a file [audio.wav] of type [audio/wav] whose bytes are
    the WAV container, at 16000 samples a second, of the chunks' samples
    in the order the chunks were added. The session is left without
    chunks and the result is that of the transcription. *)
Theorem live_upload_is_wav_of_chunks session s w :
  sessions w !! session = Some s ->
  audioChunks s <> [] ->
  exists call,
    processLiveTranscription session w =
      (mkWorld (fetched w ++ [call])
         (<[session := mkLive [] (onTranscriptUpdate s) (isActive s)]> (sessions w)),
       Normal (transcriptOf
                 (requestOutcome (network (fetched w) call) DEFAULT_TIMEOUT_MS))) /\
    payload call =
      FormPayload
        (FormDataBody
           [(js "file",
             FormFile (mkFile (wavHeader (length (concat (audioChunks s))) 16000
                                 ++ flat_map pcmBytes (concat (audioChunks s)))
                         (js "audio.wav") (js "audio/wav")));
            (js "model", FormText (js "whisper-1"));
            (js "response_format", FormText (js "text"))]).
Proof.
  intros Hs Hchunks.
  exists (uploadCall (wavOf (audioChunks s)) (js "audio/wav")).
  split; [apply processLiveTranscription_run; assumption|].
  unfold uploadCall, issued, transcriptionForm. cbn [payload].
  replace (extensionOf (js "audio/wav")) with (js "wav"); [reflexivity|].
  unfold extensionOf.
  replace (ownProperty extensionMap (js "audio/wav")) with (Some (js "wav"))
    by (vm_compute; reflexivity).
  reflexivity.
Qed.


(** A caller adding chunks one after the other. *)
Fixpoint addAudioChunks (session : loc) (chunks : list (list float)) : M unit :=
  match chunks with
  | [] => ret tt
  | chunk :: rest =>
      let* _ := addAudioChunk session chunk in
      addAudioChunks session rest
  end.

Lemma addAudioChunks_run session chunks : forall held cb w,
  sessions w !! session = Some (mkLive held cb true) ->
  addAudioChunks session chunks w =
  (mkWorld (fetched w) (<[session := mkLive (held ++ chunks) cb true]> (sessions w)),
   Normal tt).
Proof.
  induction chunks as [|chunk chunks IH]; intros held cb w Hs.
  - simpl. rewrite app_nil_r, insert_id by exact Hs. destruct w; reflexivity.
  - cbn [addAudioChunks]. unfold bind at 1, addAudioChunk, bind, readLive.
    rewrite Hs. cbn [isActive audioChunks]. unfold writeChunks. rewrite Hs.
    cbn [onTranscriptUpdate isActive].
    rewrite (IH (held ++ [chunk]) cb) by (cbn [sessions]; apply lookup_insert_eq).
    cbn [fetched sessions]. rewrite insert_insert_eq, <- app_assoc. reflexivity.
Qed.

(** X23. A session that is created, given chunks and processed twice
    uploads once: the first processing sends the WAV container of all the
    chunks in the order they were added, the second finds nothing to send
    and returns the empty text without a call. *)
Theorem live_session_lifecycle cb chunks w :
  chunks <> [] ->
  let call := uploadCall (wavOf chunks) (js "audio/wav") in
  (let* session := createLiveTranscriptionSession cb in
   let* _ := addAudioChunks session chunks in
   let* first := processLiveTranscription session in
   let* second := processLiveTranscription session in
   ret (session, first, second)) w =
  (mkWorld (fetched w ++ [call])
     (<[fresh (dom (sessions w)) := mkLive [] cb true]> (sessions w)),
   Normal (fresh (dom (sessions w)),
           transcriptOf (requestOutcome (network (fetched w) call) DEFAULT_TIMEOUT_MS),
           [])).
Proof.
  intros Hchunks call. set (session := fresh (dom (sessions w))).
  unfold bind at 1, createLiveTranscriptionSession. fold session.
  unfold bind at 1.
  rewrite (addAudioChunks_run session chunks [] cb)
    by (cbn [sessions]; apply lookup_insert_eq).
  cbn [app fetched sessions]. rewrite insert_insert_eq.
  unfold bind at 1.
  match goal with
  | |- context [processLiveTranscription session ?w1] =>
      pose proof (processLiveTranscription_run session (mkLive chunks cb true) w1
                    (lookup_insert_eq _ _ _) Hchunks) as Hrun
  end.
  cbv zeta in Hrun. cbn [audioChunks fetched sessions onTranscriptUpdate isActive] in Hrun.
  rewrite Hrun. clear Hrun. fold call.
  rewrite insert_insert_eq.
  unfold bind at 1.
  rewrite (processLiveTranscription_idle session (mkLive [] cb true))
    by first [apply lookup_insert_eq | reflexivity].
  reflexivity.
Qed.

End UploadProperties.

Lemma transcription_uploads_decoded_bytes_witness :
  exists call,
    @transcribeAudioFile transcribingService (js "TWFu") (js "audio/mp4") noUploads =
      (record noUploads [call], Normal (js "Hello there.")) /\
    payload call =
      FormPayload
        (FormDataBody
           [(js "file", FormFile (mkFile [77; 97; 110] (js "audio.m4a") (js "audio/mp4")));
            (js "model", FormText (js "whisper-1"));
            (js "response_format", FormText (js "text"))]).
Proof.
  destruct (@transcription_uploads_decoded_bytes transcribingService
              (js "TWFu") (js "audio/mp4") (js "Man") noUploads)
    as (call & Hrun & _ & _ & Hpayload).
  - discriminate.
  - discriminate.
  - vm_compute. reflexivity.
  - exists call. split.
    + rewrite Hrun. reflexivity.
    + rewrite Hpayload. vm_compute. reflexivity.
Defined.

Lemma transcription_bad_input_no_call_witness :
  @transcribeAudioFile transcribingService (js "TQ=") (js "audio/wav") noUploads =
  (noUploads, Normal TRANSCRIPTION_ERROR).
Proof.
  apply (@transcription_bad_input_no_call transcribingService
           (js "TQ=") (js "audio/wav") noUploads).
  right. right. eexists. vm_compute. reflexivity.
Defined.

Lemma scan_single_call_witness :
  exists call,
    @scanImageForText deadNetwork (js "iVBORw0KGgo=") (js "") noUploads =
      (record noUploads [call], Normal SCAN_ERROR).
Proof.
  destruct (@scan_single_call deadNetwork (js "iVBORw0KGgo=") (js "") noUploads)
    as (call & Hrun & _).
  - discriminate.
  - exists call. rewrite Hrun. reflexivity.
Defined.

Lemma live_upload_is_wav_of_chunks_witness :
  exists call,
    fst (@processLiveTranscription transcribingService 0%nat capturing) =
      mkWorld [call] {[ 0%nat := mkLive [] 7%nat true ]} /\
    snd (@processLiveTranscription transcribingService 0%nat capturing) =
      Normal (js "Hello there.").
Proof.
  destruct (@live_upload_is_wav_of_chunks transcribingService 0%nat
              (mkLive [[0.5%float; (-0.5)%float]; [1%float]] 7%nat true) capturing)
    as (call & Hrun & _).
  - reflexivity.
  - discriminate.
  - exists call. rewrite Hrun. split; [|reflexivity].
    cbn [fst fetched sessions capturing app onTranscriptUpdate isActive].
    f_equal; apply insert_singleton_eq.
Defined.


Lemma live_session_lifecycle_witness :
  snd ((let* session := @createLiveTranscriptionSession 7%nat in
        let* _ := addAudioChunks session [[0.5%float]; [0.25%float]] in
        let* first := @processLiveTranscription transcribingService session in
        let* second := @processLiveTranscription transcribingService session in
        ret (session, first, second)) noUploads) =
  Normal (0%nat, js "Hello there.", []).
Proof.
  rewrite (@live_session_lifecycle transcribingService 7%nat
             [[0.5%float]; [0.25%float]] noUploads); [|discriminate].
  reflexivity.
Defined.

(** * The notes of the application *)

Module App.

Inductive AppView := Home | MyFiles | Notes | Chat | Explore | Profile | Scanner.

(** A note; [id] is the number [Date.now()] gave and [createdAt] the
    time value of its date. *)
Record Note := mkNote {
  id : Z;
  title : str;
  transcript : str;
  summary : str;
  createdAt : Z
}.

(** The state of [App] that the note handlers read and set. *)
Record State := mkState {
  notes : list Note;
  activeNote : option Note;
  currentView : AppView;
  noteToDelete : option Note;
  toastMessage : option str
}.

(** [prevNotes.findIndex(p)] *)
Fixpoint findIndex (p : Note -> bool) (l : list Note) : Z :=
  match l with
  | [] => -1
  | n :: l' =>
      if p n then 0
      else let i := findIndex p l' in
           if i =? -1 then -1 else i + 1
  end.

(** [note?.id === noteId] *)
Definition hasId (note : option Note) (noteId : Z) : bool :=
  match note with
  | Some n => id n =? noteId
  | None => false
  end.

Definition requestDeleteNote (noteId : Z) (s : State) : State :=
  match List.find (fun n => id n =? noteId) (notes s) with
  | Some note =>
      mkState (notes s) (activeNote s) (currentView s) (Some note) (toastMessage s)
  | None => s
  end.

(** The toast quotes the title; [34] is the quotation mark. *)
Definition confirmDeleteNote (s : State) : State :=
  match noteToDelete s with
  | None => s
  | Some deleted =>
      let notes' := List.filter (fun n => negb (id n =? id deleted)) (notes s) in
      let wasActive := hasId (activeNote s) (id deleted) in
      mkState notes'
        (if wasActive then None else activeNote s)
        (if wasActive then MyFiles else currentView s)
        None
        (Some (js "Note " ++ [34%N] ++ title deleted ++ [34%N] ++ js " deleted."))
  end.

(** [now] is what [Date.now()] returns and [date] the time of [new Date()]. *)
Definition createAndActivateNote (now date : Z) (title transcript : str) (s : State)
  : State * Note :=
  let newNote := mkNote now title transcript [] date in
  (mkState (newNote :: notes s) (Some newNote) Notes (noteToDelete s) (toastMessage s),
   newNote).

Definition saveNote (noteToSave : Note) (s : State) : State :=
  let notes' :=
    let existingIndex := findIndex (fun n => id n =? id noteToSave) (notes s) in
    if -1 <? existingIndex
    then <[Z.to_nat existingIndex := noteToSave]> (notes s)
    else noteToSave :: notes s in
  mkState notes'
    (if hasId (activeNote s) (id noteToSave) then Some noteToSave else activeNote s)
    (currentView s) (noteToDelete s) (toastMessage s).

Definition updateNoteState (noteToUpdate : Note) (newTranscript : str) : Note :=
  mkNote (id noteToUpdate) (title noteToUpdate) newTranscript
         (summary noteToUpdate) (createdAt noteToUpdate).

(** The two functional updates with which [handleCapture] and
    [handleFileImport] put a transcript in the note they created. *)
Definition setTranscript (tempNote : Note) (transcript : str) (s : State) : State :=
  mkState
    (map (fun n => if id n =? id tempNote then updateNoteState n transcript else n)
         (notes s))
    (match activeNote s with
     | Some currentActiveNote =>
         if id currentActiveNote =? id tempNote
         then Some (updateNoteState currentActiveNote transcript)
         else Some currentActiveNote
     | None => None
     end)
    (currentView s) (noteToDelete s) (toastMessage s).

(** ** Facts about the list of notes *)

Lemma findIndex_none p l :
  findIndex p l = -1 <-> List.find p l = None.
Proof.
  induction l as [|n l IH]; simpl; [tauto|].
  destruct (p n); [split; discriminate|].
  assert (Hge : forall l', -1 <= findIndex p l').
  { induction l' as [|n' l' IH']; simpl; [lia|].
    destruct (p n'); [lia|]. destruct (findIndex p l' =? -1); lia. }
  destruct (findIndex p l =? -1) eqn:E.
  - apply Z.eqb_eq in E. tauto.
  - apply Z.eqb_neq in E. specialize (Hge l). split; [lia|].
    intros H. apply IH in H. contradiction.
Qed.

Lemma findIndex_found p l note :
  List.find p l = Some note ->
  exists before after,
    l = before ++ note :: after /\
    findIndex p l = Z.of_nat (length before) /\
    p note = true /\
    List.forallb (fun n => negb (p n)) before = true.
Proof.
  induction l as [|n l IH]; simpl; [discriminate|].
  destruct (p n) eqn:Hp.
  - intros [= <-]. exists [], l. repeat split; assumption.
  - intros Hfind. destruct (IH Hfind) as (before & after & -> & Hidx & Hnote & Hbefore).
    exists (n :: before), after. rewrite Hidx.
    replace (Z.of_nat (length before) =? -1) with false by (symmetry; apply Z.eqb_neq; lia).
    repeat split; [|assumption|simpl; rewrite Hp; assumption].
    simpl. lia.
Qed.

Lemma filter_all (p : Note -> bool) l :
  List.forallb p l = true -> List.filter p l = l.
Proof.
  induction l as [|n l IH]; simpl; [reflexivity|].
  destruct (p n); [|discriminate]. intros H. rewrite IH by exact H. reflexivity.
Qed.

Lemma find_none_forallb (p : Note -> bool) l :
  List.find p l = None -> List.forallb (fun n => negb (p n)) l = true.
Proof.
  induction l as [|n l IH]; simpl; [reflexivity|].
  destruct (p n); [discriminate|]. exact IH.
Qed.

Lemma find_before p before note (after : list Note) :
  List.forallb (fun n => negb (p n)) before = true -> p note = true ->
  List.find p (before ++ note :: after) = Some note.
Proof.
  induction before as [|n before IH]; simpl; intros Hbefore Hnote.
  - rewrite Hnote. reflexivity.
  - apply andb_true_iff in Hbefore as [Hn Hbefore].
    destruct (p n); [discriminate|]. apply IH; assumption.
Qed.

(** The notes after a save, by whether the id was there. *)
Lemma saveNote_notes noteToSave s :
  (List.find (fun n => id n =? id noteToSave) (notes s) = None /\
   notes (saveNote noteToSave s) = noteToSave :: notes s) \/
  (exists before old after,
      notes s = before ++ old :: after /\
      id old = id noteToSave /\
      List.forallb (fun n => negb (id n =? id noteToSave)) before = true /\
      notes (saveNote noteToSave s) = before ++ noteToSave :: after).
Proof.
  unfold saveNote. cbn [notes].
  destruct (List.find (fun n => id n =? id noteToSave) (notes s)) as [old|] eqn:Hfind.
  - right. destruct (findIndex_found _ _ _ Hfind)
      as (before & after & Hsplit & Hidx & Hold & Hbefore).
    exists before, old, after. rewrite Hidx.
    replace (-1 <? Z.of_nat (length before)) with true by (symmetry; apply Z.ltb_lt; lia).
    rewrite Nat2Z.id. split; [exact Hsplit|]. split; [apply Z.eqb_eq; exact Hold|].
    split; [exact Hbefore|]. rewrite Hsplit.
    rewrite insert_app_r_alt by lia. rewrite Nat.sub_diag. reflexivity.
  - left. split; [reflexivity|].
    rewrite (proj2 (findIndex_none _ _) Hfind). reflexivity.
Qed.

Lemma saveNote_found noteToSave s :
  List.find (fun n => id n =? id noteToSave) (notes (saveNote noteToSave s))
    = Some noteToSave.
Proof.
  destruct (saveNote_notes noteToSave s)
    as [[Hnone ->]|(before & old & after & Hs & Hold & Hbefore & ->)].
  - simpl. rewrite Z.eqb_refl. reflexivity.
  - apply find_before; [exact Hbefore|apply Z.eqb_refl].
Qed.

Lemma insert_found p l note :
  List.find p l = Some note ->
  (-1 <? findIndex p l) = true /\ <[Z.to_nat (findIndex p l) := note]> l = l.
Proof.
  intros Hfind.
  destruct (findIndex_found _ _ _ Hfind) as (before & after & -> & -> & _ & _).
  split; [apply Z.ltb_lt; lia|].
  rewrite Nat2Z.id, insert_app_r_alt by lia. rewrite Nat.sub_diag. reflexivity.
Qed.

(** The ids of the notes. *)
Definition ids (l : list Note) : list Z := map id l.

Lemma filter_ids (p : Z -> bool) l :
  ids (List.filter (fun n => p (id n)) l) = List.filter p (ids l).
Proof.
  induction l as [|n l IH]; simpl; [reflexivity|].
  destruct (p (id n)); simpl; rewrite IH; reflexivity.
Qed.

Lemma NoDup_filter_ids (p : Z -> bool) (l : list Z) :
  List.NoDup l -> List.NoDup (List.filter p l).
Proof.
  induction 1 as [|x l Hx _ IH]; simpl; [constructor|].
  destruct (p x); [|exact IH]. constructor; [|exact IH].
  intros Hin. apply filter_In in Hin. tauto.
Qed.

End App.

Import App.

(** ** Properties of the notes *)

(** Three notes, and a state in which the second is open. *)
Definition meeting : Note := mkNote 1700000000001 (js "Meeting") (js "Agenda") [] 1.
Definition lecture : Note := mkNote 1700000000002 (js "Lecture") (js "Notes") [] 2.
Definition lectureEdited : Note :=
  mkNote 1700000000002 (js "Lecture") (js "Notes, corrected") (js "Short") 2.
Definition shopping : Note := mkNote 1700000000003 (js "Shopping") (js "Milk") [] 3.

Definition someNotes : State :=
  mkState [meeting; lecture; shopping] (Some lecture) Notes None None.

(** X24. After a save the note is the one found under its id. Notes with
    another id are as they were, in the same order; the list grows by one
    exactly when the id was not there. *)
Theorem saved_note_is_found noteToSave s :
  List.find (fun n => id n =? id noteToSave) (notes (saveNote noteToSave s))
    = Some noteToSave /\
  List.filter (fun n => negb (id n =? id noteToSave)) (notes (saveNote noteToSave s))
    = List.filter (fun n => negb (id n =? id noteToSave)) (notes s) /\
  length (notes (saveNote noteToSave s))
    = (if List.existsb (fun n => id n =? id noteToSave) (notes s)
       then length (notes s) else S (length (notes s))).
Proof.
  destruct (saveNote_notes noteToSave s)
    as [[Hnone ->]|(before & old & after & Hs & Hold & Hbefore & ->)].
  - split; [simpl; rewrite Z.eqb_refl; reflexivity|].
    split; [simpl; rewrite Z.eqb_refl; reflexivity|].
    replace (List.existsb _ (notes s)) with false; [reflexivity|].
    symmetry. apply not_true_is_false. intros Hex.
    apply existsb_exists in Hex as (n & Hin & Hn).
    apply (find_none _ _ Hnone) in Hin. congruence.
  - rewrite Hs. split.
    + apply find_before; [exact Hbefore|apply Z.eqb_refl].
    + split.
      * rewrite !List.filter_app. simpl. rewrite Hold, !Z.eqb_refl. reflexivity.
      * rewrite existsb_app. simpl. rewrite Hold, Z.eqb_refl, orb_true_r.
        rewrite !length_app. reflexivity.
Qed.

(** X25. Saving a note a second time changes nothing. *)
Theorem saveNote_idempotent noteToSave s :
  saveNote noteToSave (saveNote noteToSave s) = saveNote noteToSave s.
Proof.
  pose proof (saveNote_found noteToSave s) as Hfound.
  destruct (insert_found _ _ _ Hfound) as [Hindex Hinsert].
  unfold saveNote at 1. rewrite Hindex, Hinsert.
  assert (Hactive :
    (if hasId (activeNote (saveNote noteToSave s)) (id noteToSave)
     then Some noteToSave else activeNote (saveNote noteToSave s))
    = activeNote (saveNote noteToSave s)).
  { unfold saveNote. cbn [activeNote].
    destruct (hasId (activeNote s) (id noteToSave)) eqn:Hid.
    - simpl. rewrite Z.eqb_refl. reflexivity.
    - rewrite Hid. reflexivity. }
  rewrite Hactive. destruct (saveNote noteToSave s). reflexivity.
Qed.

(** X26. Once the deletion of a listed note is requested and confirmed,
    no note with its id is left, whether one or several had it; the other
    notes are kept in their order, the request is closed, and a deleted
    note that was open is closed with the view back on the files. *)
Theorem deleted_note_is_gone noteId s note :
  List.find (fun n => id n =? noteId) (notes s) = Some note ->
  let s' := confirmDeleteNote (requestDeleteNote noteId s) in
  notes s' = List.filter (fun n => negb (id n =? noteId)) (notes s) /\
  List.find (fun n => id n =? noteId) (notes s') = None /\
  noteToDelete s' = None /\
  (hasId (activeNote s) noteId = true ->
   activeNote s' = None /\ currentView s' = MyFiles) /\
  (hasId (activeNote s) noteId = false ->
   activeNote s' = activeNote s /\ currentView s' = currentView s).
Proof.
  intros Hfind s'. subst s'. unfold requestDeleteNote. rewrite Hfind.
  unfold confirmDeleteNote. cbn [noteToDelete notes activeNote currentView].
  assert (Hid : id note = noteId).
  { apply find_some in Hfind as [_ Hid]. apply Z.eqb_eq. exact Hid. }
  rewrite Hid. split; [reflexivity|]. split.
  - destruct (List.find _ (List.filter _ (notes s))) as [n|] eqn:Hn; [|reflexivity].
    apply find_some in Hn as [Hin Hn]. apply filter_In in Hin as [_ Hne].
    rewrite Hn in Hne. discriminate.
  - split; [reflexivity|]. split; intros ->; split; reflexivity.
Qed.

(** X27. Notes whose ids are all different keep ids that are all
    different through a save, a deletion and the arrival of a transcript,
    and through the creation of a note whose id is not in use. *)
Theorem note_ids_stay_distinct s :
  List.NoDup (ids (notes s)) ->
  (forall noteToSave, List.NoDup (ids (notes (saveNote noteToSave s)))) /\
  List.NoDup (ids (notes (confirmDeleteNote s))) /\
  (forall tempNote transcript,
      List.NoDup (ids (notes (setTranscript tempNote transcript s)))) /\
  (forall now date title transcript,
      ~ In now (ids (notes s)) ->
      List.NoDup (ids (notes (fst (createAndActivateNote now date title transcript s))))).
Proof.
  intros Hdistinct. split; [|split; [|split]].
  - intros noteToSave.
    destruct (saveNote_notes noteToSave s)
      as [[Hnone ->]|(before & old & after & Hs & Hold & Hbefore & ->)].
    + simpl. constructor; [|exact Hdistinct].
      intros Hin. apply in_map_iff in Hin as (n & Hn & Hin).
      apply (find_none _ _ Hnone) in Hin. apply Z.eqb_neq in Hin. congruence.
    + rewrite Hs in Hdistinct. unfold ids in *. rewrite map_app in *. simpl in *.
      rewrite <- Hold. exact Hdistinct.
  - unfold confirmDeleteNote. destruct (noteToDelete s) as [deleted|]; [|exact Hdistinct].
    cbn [notes].
    rewrite (filter_ids (fun i => negb (i =? id deleted))).
    apply NoDup_filter_ids. exact Hdistinct.
  - intros tempNote transcript. unfold setTranscript. cbn [notes].
    unfold ids in *. rewrite map_map.
    erewrite map_ext; [exact Hdistinct|].
    intros n. simpl. destruct (id n =? id tempNote); reflexivity.
  - intros now date title transcript Hfresh. simpl. constructor; assumption.
Qed.

(** X28. A transcript that arrives changes the transcript of the notes
    with the id of the note it was created for and nothing else: ids,
    titles, summaries, dates and the order stay. Put in a note just
    created under an id that was not in use, it changes that note alone,
    which is still the first and the open one. *)
Theorem transcript_lands_in_its_note tempNote transcript s :
  (forall i n,
      notes s !! i = Some n ->
      notes (setTranscript tempNote transcript s) !! i
        = Some (if id n =? id tempNote then updateNoteState n transcript else n)) /\
  length (notes (setTranscript tempNote transcript s)) = length (notes s) /\
  (forall now date title placeholder,
      ~ In now (ids (notes s)) ->
      let created := createAndActivateNote now date title placeholder s in
      let s' := setTranscript (snd created) transcript (fst created) in
      notes s' = mkNote now title transcript [] date :: notes s /\
      activeNote s' = Some (mkNote now title transcript [] date)).
Proof.
  split; [|split].
  - intros i n Hi. unfold setTranscript. cbn [notes].
    rewrite list_lookup_fmap, Hi. reflexivity.
  - unfold setTranscript. cbn [notes]. apply length_map.
  - intros now date title placeholder Hfresh created s'. subst created s'.
    unfold createAndActivateNote, setTranscript.
    cbn [fst snd notes activeNote App.id map]. rewrite Z.eqb_refl.
    split; [|reflexivity]. unfold updateNoteState at 1. cbn [App.id App.title App.summary App.createdAt].
    f_equal. rewrite <- (map_id (notes s)) at 2. apply map_ext_in.
    intros n Hin. destruct (id n =? now) eqn:Hid; [|reflexivity].
    apply Z.eqb_eq in Hid. exfalso. apply Hfresh. unfold ids. rewrite <- Hid.
    apply in_map. exact Hin.
Qed.

Lemma deleted_note_is_gone_witness :
  notes (confirmDeleteNote (requestDeleteNote 1700000000002 someNotes))
    = [meeting; shopping] /\
  activeNote (confirmDeleteNote (requestDeleteNote 1700000000002 someNotes)) = None /\
  currentView (confirmDeleteNote (requestDeleteNote 1700000000002 someNotes)) = MyFiles.
Proof.
  destruct (deleted_note_is_gone 1700000000002 someNotes lecture eq_refl)
    as (Hnotes & _ & _ & Hactive & _).
  split; [rewrite Hnotes; reflexivity|]. apply Hactive. reflexivity.
Defined.

Lemma note_ids_stay_distinct_witness :
  List.NoDup (ids (notes (saveNote lectureEdited someNotes))).
Proof.
  apply (note_ids_stay_distinct someNotes).
  repeat constructor; simpl; intros H;
    repeat (destruct H as [H|H]; [discriminate|]); destruct H.
Defined.
